(** * LiveTourScreen: the proximity-driven playback machine

    A shallow embedding of [src/components/LiveTourScreen.jsx]: the haversine
    helper, the React state of the component, its event handlers, the two
    effects that write state (autoplay and reset-on-stop-change), and the
    commit loop that runs them.

    JavaScript numbers are IEEE-754 binary64 values; they are modelled by
    [spec_float] at precision 53 and maximal exponent 1024, with the
    operations of [SpecFloat].  Array indices are integers ([Z]). *)

From Stdlib Require Import ZArith List Bool String Lia.
From Stdlib Require Import Floats.SpecFloat.
Import ListNotations.

Local Open Scope Z_scope.

(** ** JavaScript numbers *)

Module JS.

Definition Number := spec_float.

Definition prec : Z := 53.
Definition emax : Z := 1024.

(** An integer literal of the source. *)
Definition lit (z : Z) : Number := binary_normalize prec emax z 0 false.

Definition add : Number -> Number -> Number := SFadd prec emax.
Definition sub : Number -> Number -> Number := SFsub prec emax.
Definition mul : Number -> Number -> Number := SFmul prec emax.
Definition div : Number -> Number -> Number := SFdiv prec emax.
Definition neg : Number -> Number := SFopp.

(** [x <= y], [x >= y] and [x == y]; all three are false on NaN. *)
Definition le (x y : Number) : bool := SFleb x y.
Definition ge (x y : Number) : bool := SFleb y x.
Definition eq (x y : Number) : bool := SFeqb x y.

(** ToBoolean on a number: [0], [-0] and [NaN] are falsy. *)
Definition truthy (x : Number) : bool :=
  match x with
  | S754_zero _ | S754_nan => false
  | _ => true
  end.

(** Neither NaN nor an infinity. *)
Definition finite (x : Number) : bool :=
  match x with
  | S754_zero _ | S754_finite _ _ _ => true
  | _ => false
  end.

Definition zero : Number := S754_zero false.

(** [Math.PI], the double 0x400921FB54442D18. *)
Definition PI : Number := S754_finite false 7074237752028440 (-51).

(** The functions of the [Math] object used by the source.  ECMAScript
    leaves their results implementation-approximated, so they are taken
    as a parameter of the development. *)
Record MathLib : Type := {
  m_sin : Number -> Number;
  m_cos : Number -> Number;
  m_asin : Number -> Number;
  m_sqrt : Number -> Number;
  m_sq : Number -> Number  (* x ** 2 *)
}.

End JS.

Import JS.

(** ** Helper: distance (lines 8-19) *)

Section Distance.

Variable M : MathLib.

Definition toRad (x : Number) : Number := div (mul x PI) (lit 180).

Definition EARTH_R : Number := lit 6371000.

Definition getDistanceMeters (lat1 lng1 lat2 lng2 : Number) : Number :=
  let dLat := toRad (sub lat2 lat1) in
  let dLng := toRad (sub lng2 lng1) in
  let a :=
    add (m_sq M (m_sin M (div dLat (lit 2))))
        (mul (mul (m_cos M (toRad lat1)) (m_cos M (toRad lat2)))
             (m_sq M (m_sin M (div dLng (lit 2))))) in
  mul (mul EARTH_R (lit 2)) (m_asin M (m_sqrt M a)).

End Distance.

(** ** Data model *)

(** An entry of [allStops].  The greeting and ending entries carry no
    [lat]/[lng] property ([None] stands for [undefined]). *)
Record Stop : Type := {
  lat : option Number;
  lng : option Number
}.

Record Location : Type := {
  loc_lat : Number;
  loc_lng : Number
}.

(** The values of [currentAudio] other than [null]. *)
Inductive Segment : Type :=
| greeting | approaching | arrived | narration | ending.

Definition Segment_eqb (a b : Segment) : bool :=
  match a, b with
  | greeting, greeting | approaching, approaching | arrived, arrived
  | narration, narration | ending, ending => true
  | _, _ => false
  end.

(** [currentAudio === "seg"] *)
Definition audioIs (c : option Segment) (seg : Segment) : bool :=
  match c with
  | Some x => Segment_eqb x seg
  | None => false
  end.

Definition audio_eqb (a b : option Segment) : bool :=
  match a, b with
  | None, None => true
  | Some x, Some y => Segment_eqb x y
  | _, _ => false
  end.

(** [currentTime] of the five audio elements. *)
Record Players : Type := {
  t_greeting : Number;
  t_approaching : Number;
  t_arrived : Number;
  t_narration : Number;
  t_ending : Number
}.

Definition elapsed (p : Players) (seg : Segment) : Number :=
  match seg with
  | greeting => t_greeting p
  | approaching => t_approaching p
  | arrived => t_arrived p
  | narration => t_narration p
  | ending => t_ending p
  end.

Definition seek (seg : Segment) (t : Number) (p : Players) : Players :=
  match seg with
  | greeting =>
      {| t_greeting := t; t_approaching := t_approaching p; t_arrived := t_arrived p;
         t_narration := t_narration p; t_ending := t_ending p |}
  | approaching =>
      {| t_greeting := t_greeting p; t_approaching := t; t_arrived := t_arrived p;
         t_narration := t_narration p; t_ending := t_ending p |}
  | arrived =>
      {| t_greeting := t_greeting p; t_approaching := t_approaching p; t_arrived := t;
         t_narration := t_narration p; t_ending := t_ending p |}
  | narration =>
      {| t_greeting := t_greeting p; t_approaching := t_approaching p; t_arrived := t_arrived p;
         t_narration := t; t_ending := t_ending p |}
  | ending =>
      {| t_greeting := t_greeting p; t_approaching := t_approaching p; t_arrived := t_arrived p;
         t_narration := t_narration p; t_ending := t |}
  end.

(** The callbacks handed to [setTimeout]; none is ever cleared. *)
Inductive Timeout : Type :=
| ClearBanner      (* () => setBanner(null), after BANNER_TIMEOUT *)
| StartNarration.  (* the arrived-prompt callback, after AUDIO_DELAY *)

(** The component: React state, then what it drives outside React. *)
Record State : Type := {
  allStops : list Stop;
  activeStop : Z;
  isPlaying : bool;
  visitedStops : list Z;
  hasPlayedGreeting : bool;
  banner : option string;
  currentAudio : option Segment;
  userLocation : option Location;
  (* identity of the objects held in state: a dependency array compares
     them with Object.is, so a new array or object always counts as changed *)
  visitedId : nat;
  locationId : nat;
  (* outside React *)
  players : Players;
  timers : list Timeout;
  vibrations : list Z;
  canVibrate : bool   (* window.navigator.vibrate is defined *)
}.

(** ** Constants (lines 51-55) *)

Definition VISITED_THRESHOLD_SECONDS : Number := lit 60.
Definition APPROACH_DISTANCE : Number := lit 60.
Definition ARRIVE_DISTANCE : Number := lit 18.
Definition AUDIO_DELAY : Z := 10000.
Definition BANNER_TIMEOUT : Z := 15000.

Definition ARRIVE_BANNER : string := "You’re here! Ready to hear the story?".
Definition APPROACH_BANNER : string := "Almost there! Come a bit closer to hear the story.".
Definition ARRIVE_PULSE : Z := 150.
Definition APPROACH_PULSE : Z := 100.

(** ** State updates

    A handler or an effect body reads the state of the render it belongs
    to and issues calls; [setX] calls are queued and applied in call order
    before the next render, the other calls act at once on things no
    [setX] touches.  Both are therefore run in call order. *)

Inductive Cmd : Type :=
| SetActiveStop (i : Z)
| SetIsPlaying (b : bool)
| SetCurrentAudio (a : option Segment)
| SetBanner (b : option string)
| SetHasPlayedGreeting (b : bool)
| SetUserLocation (l : Location)
| MarkVisited (i : Z)   (* setVisitedStops(prev => prev.includes(i) ? prev : [...prev, i]) *)
| ClearVisited          (* setVisitedStops([]) *)
| Vibrate (ms : Z)      (* if (window.navigator.vibrate) window.navigator.vibrate(ms) *)
| SetTimeout (t : Timeout)
| Rewind (seg : Segment). (* if (ref.current) ref.current.currentTime = 0 *)

(** [arr.includes(i)] *)
Definition includes (arr : list Z) (i : Z) : bool := existsb (Z.eqb i) arr.

Definition exec (c : Cmd) (s : State) : State :=
  match c with
  | SetActiveStop i =>
      {| allStops := allStops s; activeStop := i; isPlaying := isPlaying s;
         visitedStops := visitedStops s; hasPlayedGreeting := hasPlayedGreeting s;
         banner := banner s; currentAudio := currentAudio s; userLocation := userLocation s;
         visitedId := visitedId s; locationId := locationId s; players := players s;
         timers := timers s; vibrations := vibrations s; canVibrate := canVibrate s |}
  | SetIsPlaying b =>
      {| allStops := allStops s; activeStop := activeStop s; isPlaying := b;
         visitedStops := visitedStops s; hasPlayedGreeting := hasPlayedGreeting s;
         banner := banner s; currentAudio := currentAudio s; userLocation := userLocation s;
         visitedId := visitedId s; locationId := locationId s; players := players s;
         timers := timers s; vibrations := vibrations s; canVibrate := canVibrate s |}
  | SetCurrentAudio a =>
      {| allStops := allStops s; activeStop := activeStop s; isPlaying := isPlaying s;
         visitedStops := visitedStops s; hasPlayedGreeting := hasPlayedGreeting s;
         banner := banner s; currentAudio := a; userLocation := userLocation s;
         visitedId := visitedId s; locationId := locationId s; players := players s;
         timers := timers s; vibrations := vibrations s; canVibrate := canVibrate s |}
  | SetBanner b =>
      {| allStops := allStops s; activeStop := activeStop s; isPlaying := isPlaying s;
         visitedStops := visitedStops s; hasPlayedGreeting := hasPlayedGreeting s;
         banner := b; currentAudio := currentAudio s; userLocation := userLocation s;
         visitedId := visitedId s; locationId := locationId s; players := players s;
         timers := timers s; vibrations := vibrations s; canVibrate := canVibrate s |}
  | SetHasPlayedGreeting b =>
      {| allStops := allStops s; activeStop := activeStop s; isPlaying := isPlaying s;
         visitedStops := visitedStops s; hasPlayedGreeting := b;
         banner := banner s; currentAudio := currentAudio s; userLocation := userLocation s;
         visitedId := visitedId s; locationId := locationId s; players := players s;
         timers := timers s; vibrations := vibrations s; canVibrate := canVibrate s |}
  | SetUserLocation l =>
      {| allStops := allStops s; activeStop := activeStop s; isPlaying := isPlaying s;
         visitedStops := visitedStops s; hasPlayedGreeting := hasPlayedGreeting s;
         banner := banner s; currentAudio := currentAudio s; userLocation := Some l;
         visitedId := visitedId s; locationId := S (locationId s); players := players s;
         timers := timers s; vibrations := vibrations s; canVibrate := canVibrate s |}
  | MarkVisited i =>
      if includes (visitedStops s) i then s
      else
      {| allStops := allStops s; activeStop := activeStop s; isPlaying := isPlaying s;
         visitedStops := visitedStops s ++ [i]; hasPlayedGreeting := hasPlayedGreeting s;
         banner := banner s; currentAudio := currentAudio s; userLocation := userLocation s;
         visitedId := S (visitedId s); locationId := locationId s; players := players s;
         timers := timers s; vibrations := vibrations s; canVibrate := canVibrate s |}
  | ClearVisited =>
      {| allStops := allStops s; activeStop := activeStop s; isPlaying := isPlaying s;
         visitedStops := []; hasPlayedGreeting := hasPlayedGreeting s;
         banner := banner s; currentAudio := currentAudio s; userLocation := userLocation s;
         visitedId := S (visitedId s); locationId := locationId s; players := players s;
         timers := timers s; vibrations := vibrations s; canVibrate := canVibrate s |}
  | Vibrate ms =>
      if canVibrate s then
      {| allStops := allStops s; activeStop := activeStop s; isPlaying := isPlaying s;
         visitedStops := visitedStops s; hasPlayedGreeting := hasPlayedGreeting s;
         banner := banner s; currentAudio := currentAudio s; userLocation := userLocation s;
         visitedId := visitedId s; locationId := locationId s; players := players s;
         timers := timers s; vibrations := vibrations s ++ [ms]; canVibrate := canVibrate s |}
      else s
  | SetTimeout t =>
      {| allStops := allStops s; activeStop := activeStop s; isPlaying := isPlaying s;
         visitedStops := visitedStops s; hasPlayedGreeting := hasPlayedGreeting s;
         banner := banner s; currentAudio := currentAudio s; userLocation := userLocation s;
         visitedId := visitedId s; locationId := locationId s; players := players s;
         timers := timers s ++ [t]; vibrations := vibrations s; canVibrate := canVibrate s |}
  | Rewind seg =>
      {| allStops := allStops s; activeStop := activeStop s; isPlaying := isPlaying s;
         visitedStops := visitedStops s; hasPlayedGreeting := hasPlayedGreeting s;
         banner := banner s; currentAudio := currentAudio s; userLocation := userLocation s;
         visitedId := visitedId s; locationId := locationId s;
         players := seek seg zero (players s);
         timers := timers s; vibrations := vibrations s; canVibrate := canVibrate s |}
  end.

Definition run (cs : list Cmd) (s : State) : State :=
  fold_left (fun st c => exec c st) cs s.

(** ** Helper: real stop index (lines 22-24) *)

Definition len (s : State) : Z := Z.of_nat (List.length (allStops s)).

Definition isRealStop (idx : Z) (stops : list Stop) : bool :=
  (0 <? idx) && (idx <? Z.of_nat (List.length stops) - 1).

(** [!v] on an optional numeric property *)
Definition falsy (v : option Number) : bool :=
  match v with
  | None => true
  | Some x => negb (truthy x)
  end.

(** ** The effects that write state *)

Section Machine.

Variable M : MathLib.

(** Publishing a prompt: banner, haptic pulse, and the banner timeout. *)
Definition arriveCmds : list Cmd :=
  [SetCurrentAudio (Some arrived); SetIsPlaying true;
   SetBanner (Some ARRIVE_BANNER); Vibrate ARRIVE_PULSE; SetTimeout ClearBanner].

Definition approachCmds : list Cmd :=
  [SetCurrentAudio (Some approaching); SetIsPlaying true;
   SetBanner (Some APPROACH_BANNER); Vibrate APPROACH_PULSE; SetTimeout ClearBanner].

(** Autoplay logic for all stops (lines 154-255). *)
Definition autoplayEffect (s : State) : list Cmd :=
  if len s =? 0 then []
  else if activeStop s =? 0 then
    if negb (audioIs (currentAudio s) greeting)
    then [SetCurrentAudio (Some greeting); SetIsPlaying false] else []
  else if activeStop s =? len s - 1 then
    if negb (audioIs (currentAudio s) ending)
    then [SetCurrentAudio (Some ending); SetIsPlaying true] else []
  else if isRealStop (activeStop s) (allStops s) then
    if includes (visitedStops s) (activeStop s) then
      if negb (audioIs (currentAudio s) narration)
      then [SetCurrentAudio (Some narration); SetIsPlaying false] else []
    else
      match nth_error (allStops s) (Z.to_nat (activeStop s)) with
      | None => []
      | Some stop =>
          if falsy (lat stop) || falsy (lng stop) then
            if negb (audioIs (currentAudio s) narration)
            then [SetCurrentAudio (Some narration); SetIsPlaying true] else []
          else
            match lat stop, lng stop with
            | Some slat, Some slng =>
                let dist :=
                  match userLocation s with
                  | Some u => Some (getDistanceMeters M (loc_lat u) (loc_lng u) slat slng)
                  | None => None
                  end in
                if audioIs (currentAudio s) approaching
                   || audioIs (currentAudio s) arrived
                   || audioIs (currentAudio s) narration
                then []
                else
                  match dist with
                  | Some d =>
                      if le d ARRIVE_DISTANCE then arriveCmds
                      else if le d APPROACH_DISTANCE then approachCmds
                      else [SetCurrentAudio (Some narration); SetIsPlaying false]
                  | None => [SetCurrentAudio (Some narration); SetIsPlaying true]
                  end
            | _, _ => []
            end
      end
  else [].

(** When the user switches stops, reset all audio state (lines 346-358). *)
Definition resetEffect (s : State) : list Cmd :=
  [SetIsPlaying false; SetCurrentAudio None;
   Rewind narration; Rewind greeting; Rewind ending].

(** ** Commit loop

    After a render React runs, in declaration order, the effects one of
    whose dependencies differs from the previous render: the autoplay
    effect on [activeStop, allStops, userLocation, visitedStops,
    currentAudio], then the reset effect on [activeStop].  [allStops]
    does not change once the tour is loaded.  The queued updates give the
    next render, and so on until no dependency has changed. *)

Definition autoplayDepsSame (a b : State) : bool :=
  (activeStop a =? activeStop b)
  && Nat.eqb (locationId a) (locationId b)
  && Nat.eqb (visitedId a) (visitedId b)
  && audio_eqb (currentAudio a) (currentAudio b).

Definition resetDepsSame (a b : State) : bool :=
  activeStop a =? activeStop b.

Definition pendingEffects (prev cur : State) : list Cmd :=
  (if autoplayDepsSame prev cur then [] else autoplayEffect cur)
  ++ (if resetDepsSame prev cur then [] else resetEffect cur).

Definition commit (prev cur : State) : State := run (pendingEffects prev cur) cur.

Definition quiescent (prev cur : State) : bool :=
  autoplayDepsSame prev cur && resetDepsSame prev cur.

Fixpoint settle (fuel : nat) (prev cur : State) : State :=
  match fuel with
  | O => cur
  | S f => if quiescent prev cur then cur else settle f cur (commit prev cur)
  end.

(** The commit that follows a stop change: autoplay, then reset. *)
Definition stopChangeCommit (cur : State) : State :=
  run (autoplayEffect cur ++ resetEffect cur) cur.

End Machine.

(** ** Mount

    [tour], [greeting] and [ending] start as [useState(null)], so the first
    render returns the Loading placeholder: no audio element is rendered
    and every audio ref holds [null] when the effects run for the first
    time.  An effect with an empty dependency list never runs again. *)

Definition audioRendered (tour greeting ending : bool) : bool :=
  tour && greeting && ending.

Definition refsSetAtMount : bool := audioRendered false false false.

(** [if (approachAudio) approachAudio.addEventListener("ended", onApproachEnded)] (lines 268-269) *)
Definition approachEndedListener : bool := refsSetAtMount.

(** [if (arrivedAudio) arrivedAudio.addEventListener("ended", onArrivedEnded)] (lines 286-287) *)
Definition arrivedEndedListener : bool := refsSetAtMount.

(** ** Handlers *)

(** Play/pause button (lines 120-131). *)
Definition handlePlay (s : State) : list Cmd :=
  if negb (isPlaying s) then
    match currentAudio s with
    | None =>
        if activeStop s =? 0 then [SetCurrentAudio (Some greeting)]
        else if activeStop s =? len s - 1 then [SetCurrentAudio (Some ending)]
        else [SetCurrentAudio (Some narration)]
    | Some _ => []
    end ++ [SetIsPlaying true]
  else [SetIsPlaying false].

(** What a caller hands to [handleSkip]: a number, or the click event
    when the function itself is installed as [onClick] (line 713). *)
Inductive JSArg : Type :=
| ArgNumber (n : Z)
| ArgEvent.

(** Skip logic (lines 134-145). *)
Definition handleSkip (targetIndex : JSArg) (s : State) : list Cmd :=
  match targetIndex with
  | ArgNumber n =>
      if (0 <=? n) && (n <? len s)
      then [SetActiveStop n; SetCurrentAudio None; SetIsPlaying false]
      else []
  | ArgEvent => []
  end.

(** Greeting ends (lines 148-151). *)
Definition onGreetingEnded : list Cmd :=
  [SetHasPlayedGreeting true; SetActiveStop 1].

(** Approach prompt ends (lines 261-267). *)
Definition onApproachEnded : list Cmd :=
  [SetCurrentAudio (Some arrived); SetIsPlaying true;
   SetBanner (Some APPROACH_BANNER); Vibrate APPROACH_PULSE; SetTimeout ClearBanner].

(** Arrived prompt ends (lines 277-285 and 335-343, same body). *)
Definition onArrivedEnded : list Cmd :=
  [SetBanner (Some ARRIVE_BANNER); Vibrate ARRIVE_PULSE; SetTimeout StartNarration].

(** The delay a timeout was set with, in milliseconds.  Time itself is
    not modelled: any pending timeout may be the next to expire. *)
Definition delay (t : Timeout) : Z :=
  match t with
  | ClearBanner => BANNER_TIMEOUT
  | StartNarration => AUDIO_DELAY
  end.

(** The callback of a timeout. *)
Definition fire (t : Timeout) : list Cmd :=
  match t with
  | ClearBanner => [SetBanner None]
  | StartNarration => [SetCurrentAudio (Some narration); SetIsPlaying true; SetBanner None]
  end.

(** Mark stop as visited after narration plays 60 s (lines 298-307). *)
Definition handleTimeUpdate (s : State) (currentTime : Number) : list Cmd :=
  if negb (includes (visitedStops s) (activeStop s))
     && ge currentTime VISITED_THRESHOLD_SECONDS
  then [MarkVisited (activeStop s)]
  else [].

(** Restart Tour button (lines 585-590); the progress record and the
    settings dialog are not part of the state modelled here. *)
Definition onRestart : list Cmd := [ClearVisited; SetActiveStop 0].

(** The [ended] listeners of each audio element: the [onEnded] props of
    the JSX (lines 444-477) and the listeners added by effects. *)
Definition endedListeners (seg : Segment) : list Cmd :=
  match seg with
  | greeting => onGreetingEnded
  | approaching => if approachEndedListener then onApproachEnded else []
  | arrived => onArrivedEnded ++ (if arrivedEndedListener then onArrivedEnded else [])
  | narration => [SetIsPlaying false]
  | ending => [SetIsPlaying false]
  end.

(** The [timeupdate] listeners: only the narration element has one, added
    by the effect of lines 294-313 while the active stop is a real stop. *)
Definition timeupdateListeners (seg : Segment) (s : State) (t : Number) : list Cmd :=
  match seg with
  | narration => if isRealStop (activeStop s) (allStops s) then handleTimeUpdate s t else []
  | _ => []
  end.

(** ** Events *)

Inductive Event : Type :=
| Skip (target : JSArg)            (* handleSkip(target) *)
| SkipPrevious                     (* handleSkip(Math.max(activeStop - 1, 0)) *)
| SkipNext                         (* handleSkip(Math.min(activeStop + 1, allStops.length - 1)) *)
| SelectStop (i : Z)               (* click on entry i of the stop list: setActiveStop(i) *)
| PlayTap
| Restart
| Ended (seg : Segment)            (* the playing element reaches its end *)
| TimeUpdate (seg : Segment) (t : Number) (* the playing element advances to t *)
| LocationUpdate (l : Location)    (* watchPosition callback *)
| TimeoutFires (n : nat).          (* the n-th pending timeout expires *)

(** The element of [seg] plays exactly when [currentAudio === seg && isPlaying]
    (effect of lines 316-332). *)
Definition playing (s : State) (seg : Segment) : bool :=
  audioIs (currentAudio s) seg && isPlaying s.

Definition withPlayers (p : Players) (s : State) : State :=
  {| allStops := allStops s; activeStop := activeStop s; isPlaying := isPlaying s;
     visitedStops := visitedStops s; hasPlayedGreeting := hasPlayedGreeting s;
     banner := banner s; currentAudio := currentAudio s; userLocation := userLocation s;
     visitedId := visitedId s; locationId := locationId s; players := p;
     timers := timers s; vibrations := vibrations s; canVibrate := canVibrate s |}.

Definition withTimers (ts : list Timeout) (s : State) : State :=
  {| allStops := allStops s; activeStop := activeStop s; isPlaying := isPlaying s;
     visitedStops := visitedStops s; hasPlayedGreeting := hasPlayedGreeting s;
     banner := banner s; currentAudio := currentAudio s; userLocation := userLocation s;
     visitedId := visitedId s; locationId := locationId s; players := players s;
     timers := ts; vibrations := vibrations s; canVibrate := canVibrate s |}.

Fixpoint remove_nth {A : Type} (n : nat) (l : list A) : list A :=
  match n, l with
  | _, [] => []
  | O, _ :: t => t
  | S k, x :: t => x :: remove_nth k t
  end.

(** The state once the handlers of an event have run, before any effect. *)
Definition deliver (e : Event) (s : State) : State :=
  match e with
  | Skip target => run (handleSkip target s) s
  | SkipPrevious => run (handleSkip (ArgNumber (Z.max (activeStop s - 1) 0)) s) s
  | SkipNext => run (handleSkip (ArgNumber (Z.min (activeStop s + 1) (len s - 1))) s) s
  | SelectStop i =>
      if (0 <=? i) && (i <? len s) then run [SetActiveStop i] s else s
  | PlayTap => run (handlePlay s) s
  | Restart => run onRestart s
  | Ended seg =>
      if playing s seg then run (endedListeners seg) s else s
  | TimeUpdate seg t =>
      if playing s seg
      then run (timeupdateListeners seg s t) (withPlayers (seek seg t (players s)) s)
      else s
  | LocationUpdate l => run [SetUserLocation l] s
  | TimeoutFires n =>
      match nth_error (timers s) n with
      | Some t => run (fire t) (withTimers (remove_nth n (timers s)) s)
      | None => s
      end
  end.

Section Step.

Variable M : MathLib.

(** One event processed to completion: handlers, then commits until
    no effect is pending.  Four rounds are always enough
    (see [settle_fuel]). *)
Definition step (e : Event) (s : State) : State :=
  settle M 4 s (deliver e s).

Fixpoint steps (es : list Event) (s : State) : State :=
  match es with
  | [] => s
  | e :: rest => steps rest (step e s)
  end.

End Step.

(** The greeting and ending entries of [allStops]. *)
Definition bookend : Stop := {| lat := None; lng := None |}.

Definition restPlayers : Players :=
  {| t_greeting := zero; t_approaching := zero; t_arrived := zero;
     t_narration := zero; t_ending := zero |}.

(** The state once the tour data has arrived and the first commits have
    settled: [allStops] is [greeting, ...stops, ending] (line 78), the
    greeting is selected and paused, nothing is visited. *)
Definition loaded (stops : list Stop) (vibrate : bool) : State :=
  {| allStops := bookend :: stops ++ [bookend]; activeStop := 0; isPlaying := false;
     visitedStops := []; hasPlayedGreeting := false; banner := None;
     currentAudio := Some greeting; userLocation := None;
     visitedId := 0%nat; locationId := 0%nat; players := restPlayers;
     timers := []; vibrations := []; canVibrate := vibrate |}.

(** ** A concrete [Math] for evaluating examples

    Planar approximations, good for points a few hundred metres apart:
    sin x ~ x, cos x ~ 1, asin x ~ x; the square root and the square are
    the correctly rounded ones. *)
Definition flatMath : MathLib :=
  {| m_sin := fun x => x;
     m_cos := fun x => match x with S754_nan | S754_infinity _ => S754_nan | _ => lit 1 end;
     m_asin := fun x => x;
     m_sqrt := SFsqrt prec emax;
     m_sq := fun x => mul x x |}.

(** Decimal coordinates: [deg n d] is the double nearest to n/d. *)
Definition deg (n d : Z) : Number := div (lit n) (lit d).

Definition stopAt (la lo : Number) : Stop := {| lat := Some la; lng := Some lo |}.
Definition at_ (la lo : Number) : Location := {| loc_lat := la; loc_lng := lo |}.

(** ** A worked tour: three real stops between greeting and ending *)

Definition stop1 : Stop := stopAt (deg 377955 10000) (deg (-1223937) 10000).
Definition stop2 : Stop := stopAt (deg 377960 10000) (deg (-1223950) 10000).
Definition stop3 : Stop := stopAt (deg 377970 10000) (deg (-1223960) 10000).
Definition tour3 : State := loaded [stop1; stop2; stop3] true.

(** On stop 1, about 44 m north of it, and some 750 m away. *)
Definition on1 : Location := at_ (deg 377955 10000) (deg (-1223937) 10000).
Definition near1 : Location := at_ (deg 377959 10000) (deg (-1223937) 10000).
Definition far1 : Location := at_ (deg 378000 10000) (deg (-1224000) 10000).

(** A tour whose first real stop lies on the equator: [lat] is 0. *)
Definition equatorStop : Stop := stopAt zero (deg 1040000 10000).
Definition tourEq : State := loaded [equatorStop; stop2] true.

(** ** Predicates used in the statements *)

(** Commands an effect may issue: none of them writes a dependency other
    than [currentAudio]. *)
Definition effectCmd (c : Cmd) : bool :=
  match c with
  | SetActiveStop _ | SetUserLocation _ | MarkVisited _ | ClearVisited
  | SetHasPlayedGreeting _ => false
  | _ => true
  end.

(** What the autoplay decision reads besides [currentAudio]. *)
Definition sameScene (a b : State) : Prop :=
  allStops a = allStops b /\ activeStop a = activeStop b
  /\ visitedStops a = visitedStops b /\ userLocation a = userLocation b
  /\ visitedId a = visitedId b /\ locationId a = locationId b
  /\ canVibrate a = canVibrate b.

(** Commands that leave the audio elements' positions alone. *)
Definition keepsPlayers (c : Cmd) : bool :=
  match c with
  | Rewind _ => false
  | _ => true
  end.

(** What the distance properties need of the [Math] functions: exact
    values at 0, odd sine, even square, and cosines whose products do not
    overflow. *)
Record MathSane (M : MathLib) : Prop := {
  sin_zero : m_sin M zero = zero;
  sin_odd : forall x, m_sin M (neg x) = neg (m_sin M x);
  sq_zero : m_sq M zero = zero;
  sq_even : forall x, m_sq M (neg x) = m_sq M x;
  cos_product_finite : forall x y,
    finite x = true -> finite y = true -> finite (mul (m_cos M x) (m_cos M y)) = true;
  sqrt_zero : m_sqrt M zero = zero;
  asin_zero : m_asin M zero = zero
}.

(** NaN test, [Number.isNaN]. *)
Definition isNaN (x : Number) : bool :=
  match x with
  | S754_nan => true
  | _ => false
  end.

(** ** Predicates on states *)

(** The active stop is an index of [allStops], which holds at least the
    greeting and the ending. *)
Definition stopInRange (s : State) : Prop :=
  2 <= len s /\ 0 <= activeStop s < len s.

(** The active segment belongs to the kind of the active stop: the
    greeting to index 0, the ending to the last index, the two prompts and
    the narration to a real stop. *)
Definition segmentFits (s : State) : bool :=
  match currentAudio s with
  | None => true
  | Some greeting => activeStop s =? 0
  | Some ending => activeStop s =? len s - 1
  | Some _ => isRealStop (activeStop s) (allStops s)
  end.

(** Every visited index is a real stop, and none is listed twice. *)
Definition visitedWellFormed (s : State) : Prop :=
  Forall (fun i => isRealStop i (allStops s) = true) (visitedStops s)
  /\ NoDup (visitedStops s).

(** What the play/pause button selects when no segment is active. *)
Definition segmentOfStop (s : State) : Segment :=
  if activeStop s =? 0 then greeting
  else if activeStop s =? len s - 1 then ending
  else narration.

(** ** The progress record (LiveTourScreen.jsx, lines 86-104 and 585-590) *)

(** A string held by [localStorage], as [JSON.parse] reads it. *)
Inductive Item : Type :=
| Unparsable                                       (* JSON.parse throws *)
| FalsyValue                                       (* null, false, 0 or an empty string *)
| Progress (a : option Z) (v : option (list Z)).   (* any other value, with its activeStop and
                                                      visitedStops properties where it has them *)

(** [getItem]: [None] is [null]. *)
Definition Storage : Type := string -> option Item.

Definition setItem (k : string) (it : Item) (st : Storage) : Storage :=
  fun k' => if String.eqb k' k then Some it else st k'.

Definition removeItem (k : string) (st : Storage) : Storage :=
  fun k' => if String.eqb k' k then None else st k'.

(** [tour]: [null] until fetched; [tour_id] may be missing. *)
Record Tour : Type := { tour_id : option string }.

(** The guard [if (!tour || !tour.tour_id) return;] gives the identifier
    when it lets the effect through. *)
Definition guardedTourId (tour : option Tour) : option string :=
  match tour with
  | None => None
  | Some t =>
      match tour_id t with
      | None => None
      | Some id => if String.eqb id "" then None else Some id
      end
  end.

Definition progressKey (id : string) : string := String.append "tourProgress_" id.

(** Save effect, on [tour, activeStop, visitedStops] (lines 87-93). *)
Definition saveProgress (tour : option Tour) (s : State) (st : Storage) : Storage :=
  match guardedTourId tour with
  | None => st
  | Some id =>
      setItem (progressKey id) (Progress (Some (activeStop s)) (Some (visitedStops s))) st
  end.

(** Load effect, on [tour] (lines 95-104): what it hands to
    [setActiveStop] and [setVisitedStops], if it calls them. *)
Definition loadProgress (tour : option Tour) (st : Storage) : option (Z * list Z) :=
  match guardedTourId tour with
  | None => None
  | Some id =>
      match st (progressKey id) with
      | None => None
      | Some Unparsable => None
      | Some FalsyValue => None
      | Some (Progress a v) =>
          Some (match a with Some x => x | None => 0 end,
                match v with Some l => l | None => [] end)
      end
  end.

Definition restoreProgress (p : Z * list Z) (s : State) : State :=
  {| allStops := allStops s; activeStop := fst p; isPlaying := isPlaying s;
     visitedStops := snd p; hasPlayedGreeting := hasPlayedGreeting s;
     banner := banner s; currentAudio := currentAudio s; userLocation := userLocation s;
     visitedId := S (visitedId s); locationId := locationId s; players := players s;
     timers := timers s; vibrations := vibrations s; canVibrate := canVibrate s |}.

(** The commit of a render in which [tour] has changed: both effects run,
    the save effect first since it is declared first. *)
Definition tourCommit (tour : option Tour) (s : State) (st : Storage) : State * Storage :=
  let st1 := saveProgress tour s st in
  (match loadProgress tour st1 with
   | Some p => restoreProgress p s
   | None => s
   end, st1).

(** The restart button removes the record (line 588); [visitedStops] is a
    new array, so the save effect runs in the commit that follows. *)
Definition restartStorage (id : string) (s : State) (st : Storage) : Storage :=
  saveProgress (Some {| tour_id := Some id |}) (deliver Restart s)
    (removeItem (progressKey id) st).

(** ** The map of the live screen (LiveTourScreen.jsx, lines 487-497;
       MapPreview.jsx, lines 206-235) *)






(** ** Starting the tour (TourViewScreen.jsx, lines 82-99) *)

Definition DISTANCE_THRESHOLD : Number := lit 300.

(** [x > y], false on NaN. *)
Definition numGt (x y : Number) : bool := SFltb y x.

(** A coordinate property read as a number: [undefined] gives NaN. *)
Definition toNumber (v : option Number) : Number :=
  match v with
  | Some x => x
  | None => S754_nan
  end.

Inductive StartOutcome : Type :=
| GoLive (audioUnlocked : bool)   (* navigate("/live"), after unlocking audio or not *)
| TooFar.                         (* setShowTooFarModal(true) *)

Definition handleStartTour (M : MathLib) (userLocation : option Location) (stops : list Stop)
  : StartOutcome :=
  match userLocation, stops with
  | Some u, stop0 :: _ =>
      let dist := getDistanceMeters M (loc_lat u) (loc_lng u)
                    (toNumber (lat stop0)) (toNumber (lng stop0)) in
      if numGt dist DISTANCE_THRESHOLD then TooFar else GoLive true
  | _, _ => GoLive false
  end.

(** ** Theme selection of the tour form (CreateTourForm, App.jsx lines 363-431) *)

Record FormState : Type := {
  selectedCity : string;
  selectedThemes : list string;
  customThemeActive : bool;
  customThemeText : string;
  selectedDuration : Z
}.

Definition SURPRISE_ME : string := "🎲 Surprise Me".
Definition OWN_WORDS : string := "🖊️ In Your Own Words".

Definition initialForm : FormState :=
  {| selectedCity := "San Francisco"; selectedThemes := [SURPRISE_ME];
     customThemeActive := false; customThemeText := ""; selectedDuration := 150 |}.

(** [list.includes(x)] on strings *)
Definition includesStr (l : list string) (x : string) : bool := existsb (String.eqb x) l.

(** [list.filter(t => t !== x)] *)
Definition without (x : string) (l : list string) : list string :=
  filter (fun t => negb (String.eqb t x)) l.

Definition handleThemeToggle (theme : string) (f : FormState) : FormState :=
  if String.eqb theme OWN_WORDS then
    {| selectedCity := selectedCity f; selectedThemes := selectedThemes f;
       customThemeActive := true; customThemeText := customThemeText f;
       selectedDuration := selectedDuration f |}
  else
    {| selectedCity := selectedCity f;
       selectedThemes :=
         if includesStr (selectedThemes f) theme then without theme (selectedThemes f)
         else if String.eqb theme SURPRISE_ME then [SURPRISE_ME]
         else without SURPRISE_ME (selectedThemes f) ++ [theme];
       customThemeActive := false; customThemeText := "";
       selectedDuration := selectedDuration f |}.

(** The themes sent by [handleCreatePreview]. *)
Definition payloadThemes (f : FormState) : list string :=
  if customThemeActive f && negb (String.eqb (customThemeText f) "")
  then [customThemeText f]
  else selectedThemes f.

(** What the theme chips keep true of the selection. *)
Definition themesWellFormed (l : list string) : Prop :=
  NoDup l /\ ~ In OWN_WORDS l /\ (In SURPRISE_ME l -> l = [SURPRISE_ME]).

(** * Properties *)

Lemma Segment_eqb_eq (a b : Segment) : Segment_eqb a b = true <-> a = b.
Proof. destruct a, b; simpl; split; congruence. Qed.

(** ** The commit loop settles *)

Lemma sameScene_refl s : sameScene s s.
Proof. repeat split. Qed.

Lemma sameScene_trans a b c : sameScene a b -> sameScene b c -> sameScene a c.
Proof. unfold sameScene. intuition congruence. Qed.

Lemma exec_effectCmd c s : effectCmd c = true -> sameScene s (exec c s).
Proof.
  unfold sameScene.
  destruct c; simpl; try discriminate; intros _;
    try (destruct (canVibrate s) eqn:E); simpl; rewrite ?E; repeat split.
Qed.

Lemma run_effectCmds cs : forall s, forallb effectCmd cs = true -> sameScene s (run cs s).
Proof.
  induction cs as [|c cs IH]; intros s H; simpl in *.
  - apply sameScene_refl.
  - apply andb_true_iff in H as [Hc Hcs].
    eapply sameScene_trans; [apply exec_effectCmd, Hc | apply IH, Hcs].
Qed.

Section Settling.

Variable M : MathLib.

Ltac branch :=
  match goal with
  | |- context [if ?b then _ else _] => destruct b eqn:?
  | |- context [match ?x with Some _ => _ | None => _ end] => destruct x eqn:?
  end.

Lemma autoplayEffect_effectCmds s : forallb effectCmd (autoplayEffect M s) = true.
Proof. unfold autoplayEffect. repeat branch; reflexivity. Qed.

Lemma resetEffect_effectCmds s : forallb effectCmd (resetEffect s) = true.
Proof. reflexivity. Qed.

Lemma pendingEffects_effectCmds prev cur :
  forallb effectCmd (pendingEffects M prev cur) = true.
Proof.
  unfold pendingEffects. rewrite forallb_app.
  destruct (autoplayDepsSame prev cur), (resetDepsSame prev cur); simpl;
    rewrite ?autoplayEffect_effectCmds; reflexivity.
Qed.

Lemma commit_sameScene prev cur : sameScene cur (commit M prev cur).
Proof. apply run_effectCmds, pendingEffects_effectCmds. Qed.

(** The autoplay decision depends on the scene and on [currentAudio]. *)
Lemma autoplayEffect_ext a b :
  sameScene a b -> currentAudio a = currentAudio b ->
  autoplayEffect M a = autoplayEffect M b.
Proof.
  intros (H1 & H2 & H3 & H4 & _) H5.
  unfold autoplayEffect, len. rewrite H1, H2, H3, H4, H5. reflexivity.
Qed.

(** Once its updates are applied the autoplay effect has nothing to add. *)
Lemma autoplayEffect_idem s :
  autoplayEffect M (run (autoplayEffect M s) s) = [].
Proof.
  pose proof (run_effectCmds _ s (autoplayEffect_effectCmds s)) as (H1 & H2 & H3 & H4 & _).
  unfold autoplayEffect at 1. unfold len.
  rewrite <- H1, <- H2, <- H3, <- H4. clear H1 H2 H3 H4.
  unfold autoplayEffect, len.
  destruct (Z.of_nat (List.length (allStops s)) =? 0) eqn:E0; [reflexivity|].
  destruct (activeStop s =? 0) eqn:E1.
  { destruct (audioIs (currentAudio s) greeting) eqn:A; cbn; rewrite ?A; reflexivity. }
  destruct (activeStop s =? Z.of_nat (List.length (allStops s)) - 1) eqn:E2.
  { destruct (audioIs (currentAudio s) ending) eqn:A; cbn; rewrite ?A; reflexivity. }
  destruct (isRealStop (activeStop s) (allStops s)) eqn:E3; [|reflexivity].
  destruct (includes (visitedStops s) (activeStop s)) eqn:E4.
  { destruct (audioIs (currentAudio s) narration) eqn:A; cbn; rewrite ?A; reflexivity. }
  destruct (nth_error (allStops s) (Z.to_nat (activeStop s))) as [stop|] eqn:E5; [|reflexivity].
  destruct (falsy (lat stop) || falsy (lng stop)) eqn:E6.
  { destruct (audioIs (currentAudio s) narration) eqn:A; cbn; rewrite ?A; reflexivity. }
  destruct (lat stop) as [slat|]; [|reflexivity].
  destruct (lng stop) as [slng|]; [|reflexivity].
  destruct (audioIs (currentAudio s) approaching || audioIs (currentAudio s) arrived
            || audioIs (currentAudio s) narration) eqn:A.
  { cbn. rewrite A. reflexivity. }
  destruct (userLocation s) as [u|].
  - destruct (le _ ARRIVE_DISTANCE); [|destruct (le _ APPROACH_DISTANCE)];
      cbn; destruct (canVibrate s); reflexivity.
  - reflexivity.
Qed.

Lemma audio_eqb_refl a : audio_eqb a a = true.
Proof. destruct a as [[]|]; reflexivity. Qed.

Lemma resetDepsSame_scene a b : sameScene a b -> resetDepsSame a b = true.
Proof. intros (_ & H & _). unfold resetDepsSame. rewrite H. apply Z.eqb_refl. Qed.

Lemma quiescent_refl s : quiescent s s = true.
Proof.
  unfold quiescent, autoplayDepsSame, resetDepsSame.
  rewrite Z.eqb_refl, !Nat.eqb_refl, audio_eqb_refl. reflexivity.
Qed.

Lemma settle_quiescent n prev cur :
  quiescent prev cur = true -> settle M n prev cur = cur.
Proof. intros H. destruct n; simpl; [|rewrite H]; reflexivity. Qed.

(** A commit that follows a commit runs at most the autoplay effect. *)
Lemma commit_after_commit a b :
  sameScene a b -> quiescent a b = false ->
  commit M a b = run (autoplayEffect M b) b.
Proof.
  intros Hs Hq. unfold commit, pendingEffects.
  unfold quiescent in Hq. rewrite (resetDepsSame_scene _ _ Hs) in *.
  rewrite andb_true_r in Hq. rewrite Hq, app_nil_r. reflexivity.
Qed.

Lemma commit_after_autoplay a s :
  sameScene a s -> commit M a (run (autoplayEffect M s) s) = run (autoplayEffect M s) s.
Proof.
  intros Hs. unfold commit, pendingEffects.
  rewrite autoplayEffect_idem.
  rewrite resetDepsSame_scene.
  - destruct (autoplayDepsSame _ _); reflexivity.
  - eapply sameScene_trans; [exact Hs|].
    apply run_effectCmds, autoplayEffect_effectCmds.
Qed.

(** Four rounds settle every state: more fuel changes nothing. *)
Theorem settle_fuel k prev cur :
  settle M (4 + k) prev cur = settle M 4 prev cur.
Proof.
  change (4 + k)%nat with (S (S (S (S k)))).
  cbn [settle].
  destruct (quiescent prev cur) eqn:Q0; [reflexivity|].
  pose proof (commit_sameScene prev cur) as S1.
  set (c1 := commit M prev cur) in *.
  destruct (quiescent cur c1) eqn:Q1; [reflexivity|].
  rewrite (commit_after_commit _ _ S1 Q1).
  destruct (quiescent c1 _) eqn:Q2; [reflexivity|].
  rewrite (commit_after_autoplay c1 c1 (sameScene_refl c1)).
  rewrite quiescent_refl. reflexivity.
Qed.

Lemma run_app a b s : run (a ++ b) s = run b (run a s).
Proof. apply fold_left_app. Qed.

Lemma stopChangeCommit_audio cur :
  currentAudio (stopChangeCommit M cur) = None /\ isPlaying (stopChangeCommit M cur) = false.
Proof. unfold stopChangeCommit. rewrite run_app. split; reflexivity. Qed.

(** [settle] in closed form. *)
Theorem settle_spec prev cur :
  settle M 4 prev cur =
    if quiescent prev cur then cur
    else if activeStop prev =? activeStop cur then run (autoplayEffect M cur) cur
    else if audio_eqb (currentAudio cur) None then stopChangeCommit M cur
    else run (autoplayEffect M (stopChangeCommit M cur)) (stopChangeCommit M cur).
Proof.
  cbn [settle].
  destruct (quiescent prev cur) eqn:Q0; [reflexivity|].
  pose proof (commit_sameScene prev cur) as S1.
  destruct (activeStop prev =? activeStop cur) eqn:EA.
  - assert (C1 : commit M prev cur = run (autoplayEffect M cur) cur).
    { unfold commit, pendingEffects. unfold quiescent, resetDepsSame in Q0.
      unfold resetDepsSame. rewrite EA in *. rewrite andb_true_r in Q0.
      rewrite Q0, app_nil_r. reflexivity. }
    rewrite C1 in *.
    destruct (quiescent cur _) eqn:Q1; [reflexivity|].
    rewrite (commit_after_autoplay cur cur (sameScene_refl cur)).
    rewrite quiescent_refl. reflexivity.
  - assert (C1 : commit M prev cur = stopChangeCommit M cur).
    { unfold commit, pendingEffects, stopChangeCommit, autoplayDepsSame, resetDepsSame.
      rewrite EA. reflexivity. }
    rewrite C1 in *.
    assert (Q1 : quiescent cur (stopChangeCommit M cur) = audio_eqb (currentAudio cur) None).
    { destruct S1 as (_ & H2 & _ & _ & H5 & H6 & _).
      unfold quiescent, autoplayDepsSame, resetDepsSame.
      rewrite <- H2, <- H5, <- H6, Z.eqb_refl, !Nat.eqb_refl.
      rewrite (proj1 (stopChangeCommit_audio cur)).
      simpl. rewrite andb_true_r. reflexivity. }
    rewrite Q1.
    destruct (audio_eqb (currentAudio cur) None) eqn:EN; [reflexivity|].
    rewrite commit_after_commit by (assumption || congruence).
    destruct (quiescent (stopChangeCommit M cur) _) eqn:Q2; [reflexivity|].
    rewrite (commit_after_autoplay _ _ (sameScene_refl _)).
    rewrite quiescent_refl. reflexivity.
Qed.

End Settling.

(** ** The autoplay decision, branch by branch *)

Lemma isRealStop_bounds i stops :
  isRealStop i stops = true ->
  (Z.of_nat (List.length stops) =? 0) = false
  /\ (i =? 0) = false
  /\ (i =? Z.of_nat (List.length stops) - 1) = false.
Proof.
  unfold isRealStop. intros H. apply andb_true_iff in H as [H1 H2].
  apply Z.ltb_lt in H1, H2. repeat split; apply Z.eqb_neq; lia.
Qed.

(** [allStops[activeStop]] is defined at a real stop. *)
Lemma isRealStop_lookup i (stops : list Stop) :
  isRealStop i stops = true -> exists stop, nth_error stops (Z.to_nat i) = Some stop.
Proof.
  unfold isRealStop. intros H. apply andb_true_iff in H as [H1 H2].
  apply Z.ltb_lt in H1, H2.
  destruct (nth_error stops (Z.to_nat i)) as [stop|] eqn:E; [exists stop; reflexivity|].
  apply nth_error_None in E. lia.
Qed.

Section Decision.

Variable M : MathLib.

Lemma autoplayEffect_visited s :
  isRealStop (activeStop s) (allStops s) = true ->
  includes (visitedStops s) (activeStop s) = true ->
  autoplayEffect M s =
    if audioIs (currentAudio s) narration then []
    else [SetCurrentAudio (Some narration); SetIsPlaying false].
Proof.
  intros HR HV. destruct (isRealStop_bounds _ _ HR) as (E0 & E1 & E2).
  unfold autoplayEffect, len. rewrite E0, E1, E2, HR, HV.
  destruct (audioIs (currentAudio s) narration); reflexivity.
Qed.

Lemma autoplayEffect_no_coords s stop :
  isRealStop (activeStop s) (allStops s) = true ->
  includes (visitedStops s) (activeStop s) = false ->
  nth_error (allStops s) (Z.to_nat (activeStop s)) = Some stop ->
  falsy (lat stop) || falsy (lng stop) = true ->
  autoplayEffect M s =
    if audioIs (currentAudio s) narration then []
    else [SetCurrentAudio (Some narration); SetIsPlaying true].
Proof.
  intros HR HV HS HF. destruct (isRealStop_bounds _ _ HR) as (E0 & E1 & E2).
  unfold autoplayEffect, len. rewrite E0, E1, E2, HR, HV, HS, HF.
  destruct (audioIs (currentAudio s) narration); reflexivity.
Qed.

Lemma autoplayEffect_coords s stop slat slng :
  isRealStop (activeStop s) (allStops s) = true ->
  includes (visitedStops s) (activeStop s) = false ->
  nth_error (allStops s) (Z.to_nat (activeStop s)) = Some stop ->
  lat stop = Some slat -> lng stop = Some slng ->
  truthy slat = true -> truthy slng = true ->
  autoplayEffect M s =
    if audioIs (currentAudio s) approaching || audioIs (currentAudio s) arrived
       || audioIs (currentAudio s) narration
    then []
    else match userLocation s with
         | Some u =>
             let d := getDistanceMeters M (loc_lat u) (loc_lng u) slat slng in
             if le d ARRIVE_DISTANCE then arriveCmds
             else if le d APPROACH_DISTANCE then approachCmds
             else [SetCurrentAudio (Some narration); SetIsPlaying false]
         | None => [SetCurrentAudio (Some narration); SetIsPlaying true]
         end.
Proof.
  intros HR HV HS Hla Hlo Tla Tlo. destruct (isRealStop_bounds _ _ HR) as (E0 & E1 & E2).
  unfold autoplayEffect, len. rewrite E0, E1, E2, HR, HV, HS, Hla, Hlo.
  simpl falsy. rewrite Tla, Tlo. simpl.
  destruct (userLocation s); reflexivity.
Qed.

(** A location update never changes the stop, so only the autoplay
    effect runs after it. *)
Lemma step_LocationUpdate s l :
  step M (LocationUpdate l) s =
    run (autoplayEffect M (exec (SetUserLocation l) s)) (exec (SetUserLocation l) s).
Proof.
  unfold step. rewrite settle_spec.
  change (deliver (LocationUpdate l) s) with (exec (SetUserLocation l) s).
  assert (Q : quiescent s (exec (SetUserLocation l) s) = false).
  { unfold quiescent, autoplayDepsSame. simpl.
    replace (Nat.eqb (locationId s) (S (locationId s))) with false.
    - rewrite andb_false_r. reflexivity.
    - symmetry. apply Nat.eqb_neq. lia. }
  rewrite Q.
  change (activeStop (exec (SetUserLocation l) s)) with (activeStop s).
  rewrite Z.eqb_refl. reflexivity.
Qed.

End Decision.

(** ** Location updates at a real stop *)

Section LocationClaims.

Variable M : MathLib.

(** C4.  A location update at a real stop that is not yet visited and has
    coordinates, while the active segment is none of approaching, arrived
    and narration: within 18 m the machine switches to [arrived], playing,
    with the arrive banner; beyond 18 m and within 60 m to [approaching],
    playing, with the approach banner; otherwise to [narration], not
    playing. *)
Theorem location_update_classifies (s : State) (l : Location) (stop : Stop)
    (slat slng : Number) :
  isRealStop (activeStop s) (allStops s) = true ->
  includes (visitedStops s) (activeStop s) = false ->
  nth_error (allStops s) (Z.to_nat (activeStop s)) = Some stop ->
  lat stop = Some slat -> lng stop = Some slng ->
  truthy slat = true -> truthy slng = true ->
  audioIs (currentAudio s) approaching = false ->
  audioIs (currentAudio s) arrived = false ->
  audioIs (currentAudio s) narration = false ->
  let d := getDistanceMeters M (loc_lat l) (loc_lng l) slat slng in
  let s' := step M (LocationUpdate l) s in
  (le d ARRIVE_DISTANCE = true ->
     currentAudio s' = Some arrived /\ isPlaying s' = true
     /\ banner s' = Some ARRIVE_BANNER)
  /\ (le d ARRIVE_DISTANCE = false -> le d APPROACH_DISTANCE = true ->
     currentAudio s' = Some approaching /\ isPlaying s' = true
     /\ banner s' = Some APPROACH_BANNER)
  /\ (le d ARRIVE_DISTANCE = false -> le d APPROACH_DISTANCE = false ->
     currentAudio s' = Some narration /\ isPlaying s' = false).
Proof.
  intros HR HV HS Hla Hlo Tla Tlo A1 A2 A3 d s'. subst s'.
  rewrite step_LocationUpdate.
  set (s1 := exec (SetUserLocation l) s).
  rewrite (autoplayEffect_coords M s1 stop slat slng HR HV HS Hla Hlo Tla Tlo).
  change (currentAudio s1) with (currentAudio s).
  change (userLocation s1) with (Some l).
  rewrite A1, A2, A3. cbv zeta. fold d. simpl orb. cbv iota.
  split; [intros D1 | split; intros D1 D2]; rewrite D1, ?D2.
  - cbn. destruct (canVibrate s); repeat split.
  - cbn. destruct (canVibrate s); repeat split.
  - split; reflexivity.
Qed.

(** C5, as amended.  A location update at a real stop that is already
    visited leaves [narration] the active segment whatever the distance;
    playing becomes false unless narration was already the active
    segment, in which case the play flag is left as it was. *)
Theorem revisit_location_update (s : State) (l : Location) :
  isRealStop (activeStop s) (allStops s) = true ->
  includes (visitedStops s) (activeStop s) = true ->
  let s' := step M (LocationUpdate l) s in
  currentAudio s' = Some narration
  /\ isPlaying s' = if audioIs (currentAudio s) narration then isPlaying s else false.
Proof.
  intros HR HV s'. subst s'.
  rewrite step_LocationUpdate.
  set (s1 := exec (SetUserLocation l) s).
  rewrite (autoplayEffect_visited M s1 HR HV).
  change (currentAudio s1) with (currentAudio s).
  destruct (audioIs (currentAudio s) narration) eqn:A.
  - assert (E : currentAudio s = Some narration).
    { destruct (currentAudio s) as [c|]; [|discriminate].
      apply Segment_eqb_eq in A. subst c. reflexivity. }
    split; [exact E | reflexivity].
  - split; reflexivity.
Qed.

(** C10, as amended.  For a real stop that is not yet visited and whose
    latitude or longitude is 0, -0, NaN or missing, the autoplay effect
    takes the no-coordinates branch, whatever the user location and the
    [Math] functions: it activates [narration] with playing true unless
    narration is already the active segment, and then issues nothing. *)
Theorem falsy_coordinate_fails_open (s : State) (stop : Stop) :
  isRealStop (activeStop s) (allStops s) = true ->
  includes (visitedStops s) (activeStop s) = false ->
  nth_error (allStops s) (Z.to_nat (activeStop s)) = Some stop ->
  falsy (lat stop) || falsy (lng stop) = true ->
  autoplayEffect M s =
    (if audioIs (currentAudio s) narration then []
     else [SetCurrentAudio (Some narration); SetIsPlaying true])
  /\ falsy (Some zero) = true /\ falsy (Some (neg zero)) = true
  /\ falsy (Some S754_nan) = true /\ falsy None = true.
Proof.
  intros HR HV HS HF. split; [|repeat split].
  apply (autoplayEffect_no_coords M s stop HR HV HS HF).
Qed.

End LocationClaims.

Lemma location_update_classifies_witness :
  let s := step flatMath (Skip (ArgNumber 1)) tour3 in
  let d := getDistanceMeters flatMath (loc_lat near1) (loc_lng near1)
             (deg 377955 10000) (deg (-1223937) 10000) in
  let s' := step flatMath (LocationUpdate near1) s in
  isRealStop (activeStop s) (allStops s) = true
  /\ includes (visitedStops s) (activeStop s) = false
  /\ currentAudio s = None
  /\ le d ARRIVE_DISTANCE = false /\ le d APPROACH_DISTANCE = true
  /\ currentAudio s' = Some approaching /\ isPlaying s' = true
  /\ banner s' = Some APPROACH_BANNER.
Proof.
  cbv zeta.
  do 5 (split; [vm_compute; reflexivity|]).
  refine (proj1 (proj2 (location_update_classifies flatMath
            (step flatMath (Skip (ArgNumber 1)) tour3) near1 stop1
            (deg 377955 10000) (deg (-1223937) 10000) _ _ _ _ _ _ _ _ _ _)) _ _);
    vm_compute; reflexivity.
Defined.

(** C5, counterexample: stop 1 has just been marked visited while its
    narration plays; a location update leaves it playing. *)
Lemma revisit_update_keeps_playing :
  let s := steps flatMath [Skip (ArgNumber 1); PlayTap; TimeUpdate narration (lit 60)] tour3 in
  let s' := step flatMath (LocationUpdate on1) s in
  isRealStop (activeStop s) (allStops s) = true
  /\ includes (visitedStops s) (activeStop s) = true
  /\ ~ (currentAudio s' = Some narration /\ isPlaying s' = false).
Proof.
  cbv zeta. split; [vm_compute; reflexivity|]. split; [vm_compute; reflexivity|].
  intros [_ H]. vm_compute in H. discriminate H.
Qed.

Lemma revisit_location_update_witness :
  let s := steps flatMath [Skip (ArgNumber 1); PlayTap; TimeUpdate narration (lit 60);
                           SkipNext; SkipPrevious] tour3 in
  let s' := step flatMath (LocationUpdate on1) s in
  isRealStop (activeStop s) (allStops s) = true
  /\ includes (visitedStops s) (activeStop s) = true
  /\ currentAudio s' = Some narration /\ isPlaying s' = false.
Proof.
  cbv zeta.
  do 2 (split; [vm_compute; reflexivity|]).
  refine (revisit_location_update flatMath
            (steps flatMath [Skip (ArgNumber 1); PlayTap; TimeUpdate narration (lit 60);
                             SkipNext; SkipPrevious] tour3) on1 _ _);
    vm_compute; reflexivity.
Defined.

(** C10, counterexample: the equator stop, once visited, takes the
    revisit branch: narration is activated with playing false. *)
Lemma visited_equator_stop_not_fail_open :
  let s := steps flatMath [Skip (ArgNumber 1); PlayTap; TimeUpdate narration (lit 60);
                           SkipNext; SkipPrevious] tourEq in
  isRealStop (activeStop s) (allStops s) = true
  /\ nth_error (allStops s) (Z.to_nat (activeStop s)) = Some equatorStop
  /\ lat equatorStop = Some zero
  /\ autoplayEffect flatMath s = [SetCurrentAudio (Some narration); SetIsPlaying false]
  /\ ~ (currentAudio (step flatMath (LocationUpdate far1) s) = Some narration
        /\ isPlaying (step flatMath (LocationUpdate far1) s) = true).
Proof.
  cbv zeta. do 4 (split; [vm_compute; reflexivity|]).
  intros [_ H]. vm_compute in H. discriminate H.
Qed.

Lemma falsy_coordinate_fails_open_witness :
  let s := step flatMath (Skip (ArgNumber 1)) tourEq in
  isRealStop (activeStop s) (allStops s) = true
  /\ includes (visitedStops s) (activeStop s) = false
  /\ nth_error (allStops s) (Z.to_nat (activeStop s)) = Some equatorStop
  /\ falsy (lat equatorStop) || falsy (lng equatorStop) = true
  /\ autoplayEffect flatMath s = [SetCurrentAudio (Some narration); SetIsPlaying true].
Proof.
  cbv zeta.
  do 4 (split; [vm_compute; reflexivity|]).
  refine (proj1 (falsy_coordinate_fails_open flatMath
            (step flatMath (Skip (ArgNumber 1)) tourEq) equatorStop _ _ _ _));
    vm_compute; reflexivity.
Defined.

(** ** What an event leaves alone *)

Section Frames.

Variable M : MathLib.

Lemma settle_sameScene n : forall prev cur, sameScene cur (settle M n prev cur).
Proof.
  induction n as [|n IH]; intros prev cur; simpl.
  - apply sameScene_refl.
  - destruct (quiescent prev cur); [apply sameScene_refl|].
    eapply sameScene_trans; [apply commit_sameScene | apply IH].
Qed.

Lemma step_sameScene e s : sameScene (deliver e s) (step M e s).
Proof. apply settle_sameScene. Qed.

(** Only the restart button and the narration [timeupdate] listener
    write [visitedStops]. *)
Lemma deliver_keeps_visited e s :
  e <> Restart -> (forall t, e <> TimeUpdate narration t) ->
  visitedStops (deliver e s) = visitedStops s.
Proof.
  intros NR NT. destruct e as [target| | |i| | |seg|seg t|l|n]; simpl.
  - destruct target as [k|]; simpl; [destruct ((0 <=? k) && (k <? len s))|]; reflexivity.
  - destruct ((0 <=? _) && (_ <? len s)); reflexivity.
  - destruct ((0 <=? _) && (_ <? len s)); reflexivity.
  - destruct ((0 <=? i) && (i <? len s)); reflexivity.
  - unfold handlePlay.
    destruct (isPlaying s); simpl; [reflexivity|].
    destruct (currentAudio s); simpl; [reflexivity|].
    destruct (activeStop s =? 0); [reflexivity|].
    destruct (activeStop s =? len s - 1); reflexivity.
  - contradiction NR; reflexivity.
  - destruct (playing s seg); [|reflexivity].
    destruct seg; simpl; try reflexivity.
    destruct (canVibrate s); reflexivity.
  - destruct (playing s seg); [|reflexivity].
    destruct seg; try reflexivity.
    contradiction (NT t); reflexivity.
  - reflexivity.
  - destruct (nth_error (timers s) n) as [[]|]; reflexivity.
Qed.

End Frames.

(** ** Dwell-based visited marking *)

Section Dwell.

Variable M : MathLib.

(** C6.  While the narration of a real stop plays, a time update adds the
    stop to [visitedStops] exactly when the elapsed time is at least 60 s
    (60 qualifies, 59 does not); a stop already present is not added
    again and marking it leaves the state as it is; no event other than
    such a time update and the restart button changes [visitedStops]. *)
Theorem dwell_marks_visited (s : State) (t : Number) :
  isRealStop (activeStop s) (allStops s) = true ->
  playing s narration = true ->
  let s' := step M (TimeUpdate narration t) s in
  visitedStops s' =
    (if includes (visitedStops s) (activeStop s) then visitedStops s
     else if ge t VISITED_THRESHOLD_SECONDS then visitedStops s ++ [activeStop s]
     else visitedStops s)
  /\ ge (lit 60) VISITED_THRESHOLD_SECONDS = true
  /\ ge (lit 59) VISITED_THRESHOLD_SECONDS = false
  /\ (forall i, includes (visitedStops s) i = true -> exec (MarkVisited i) s = s)
  /\ (forall e s0, e <> Restart -> (forall t0, e <> TimeUpdate narration t0) ->
        visitedStops (step M e s0) = visitedStops s0).
Proof.
  intros HR HP s'. subst s'.
  split; [|split; [vm_compute; reflexivity|split; [vm_compute; reflexivity|split]]].
  - destruct (step_sameScene M (TimeUpdate narration t) s) as (_ & _ & H & _).
    rewrite <- H. unfold deliver. rewrite HP.
    unfold timeupdateListeners.
    rewrite HR. unfold handleTimeUpdate.
    destruct (includes (visitedStops s) (activeStop s)) eqn:HV; [reflexivity|].
    destruct (ge t VISITED_THRESHOLD_SECONDS); [|reflexivity].
    cbn [negb andb run fold_left exec withPlayers visitedStops].
    rewrite HV. reflexivity.
  - intros i Hi. cbn [exec]. rewrite Hi. reflexivity.
  - intros e s0 NR NT.
    destruct (step_sameScene M e s0) as (_ & _ & H & _).
    rewrite <- H. apply deliver_keeps_visited; assumption.
Qed.

End Dwell.

Lemma dwell_marks_visited_witness :
  let s := steps flatMath [Skip (ArgNumber 3); PlayTap] tour3 in
  isRealStop (activeStop s) (allStops s) = true
  /\ playing s narration = true
  /\ visitedStops (step flatMath (TimeUpdate narration (lit 59)) s) = []
  /\ visitedStops (step flatMath (TimeUpdate narration (lit 60)) s) = [3].
Proof.
  cbv zeta.
  set (s := steps flatMath [Skip (ArgNumber 3); PlayTap] tour3).
  assert (H1 : isRealStop (activeStop s) (allStops s) = true) by (vm_compute; reflexivity).
  assert (H2 : playing s narration = true) by (vm_compute; reflexivity).
  split; [exact H1|]. split; [exact H2|]. split.
  - destruct (dwell_marks_visited flatMath s (lit 59) H1 H2) as [H _].
    rewrite H. vm_compute. reflexivity.
  - destruct (dwell_marks_visited flatMath s (lit 60) H1 H2) as [H _].
    rewrite H. vm_compute. reflexivity.
Defined.

(** ** Stop changes *)

Lemma run_keepsPlayers cs : forall s, forallb keepsPlayers cs = true -> players (run cs s) = players s.
Proof.
  induction cs as [|c cs IH]; intros s H; simpl in *; [reflexivity|].
  apply andb_true_iff in H as [Hc Hcs].
  unfold run in IH. rewrite (IH _ Hcs).
  destruct c; simpl in *; try discriminate; try reflexivity.
  - destruct (includes (visitedStops s) i); reflexivity.
  - destruct (canVibrate s); reflexivity.
Qed.

Section StopChange.

Variable M : MathLib.

Lemma autoplayEffect_keepsPlayers s : forallb keepsPlayers (autoplayEffect M s) = true.
Proof.
  unfold autoplayEffect.
  repeat match goal with
  | |- context [if ?b then _ else _] => destruct b eqn:?
  | |- context [match ?x with Some _ => _ | None => _ end] => destruct x eqn:?
  end; reflexivity.
Qed.

Lemma commit_stop_change prev cur :
  activeStop prev <> activeStop cur -> commit M prev cur = stopChangeCommit M cur.
Proof.
  intros H. apply Z.eqb_neq in H.
  unfold commit, pendingEffects, stopChangeCommit, autoplayDepsSame, resetDepsSame.
  rewrite H. reflexivity.
Qed.

(** The reset on a stop change: no active segment, not playing, and the
    narration, greeting and ending elements rewound; the two prompt
    elements keep their position. *)
Lemma stopChangeCommit_spec cur :
  let c := stopChangeCommit M cur in
  activeStop c = activeStop cur
  /\ currentAudio c = None /\ isPlaying c = false
  /\ elapsed (players c) narration = zero
  /\ elapsed (players c) greeting = zero
  /\ elapsed (players c) ending = zero
  /\ elapsed (players c) approaching = elapsed (players cur) approaching
  /\ elapsed (players c) arrived = elapsed (players cur) arrived.
Proof.
  cbv zeta. unfold stopChangeCommit. rewrite run_app.
  pose proof (run_effectCmds _ cur (autoplayEffect_effectCmds M cur)) as (_ & HA & _).
  pose proof (run_keepsPlayers _ cur (autoplayEffect_keepsPlayers cur)) as HP.
  set (x := run (autoplayEffect M cur) cur) in *.
  cbn. rewrite <- HP. repeat split. symmetry. exact HA.
Qed.

(** After a stop change that leaves no active segment the machine
    settles at once on the reset state. *)
Lemma settle_stop_change prev cur :
  activeStop prev <> activeStop cur -> currentAudio cur = None ->
  settle M 4 prev cur = stopChangeCommit M cur.
Proof.
  intros H HN. rewrite settle_spec.
  assert (Q : quiescent prev cur = false).
  { unfold quiescent, resetDepsSame. apply Z.eqb_neq in H. rewrite H.
    apply andb_false_r. }
  rewrite Q. apply Z.eqb_neq in H. rewrite H, HN. reflexivity.
Qed.

End StopChange.

(** C1, at the failing input: the approach prompt has played for 2 s at
    stop 1 when the user skips to stop 2.  The segment is reset and the
    narration, greeting and ending elements read 0, but the approach
    element still reads 2 s. *)
Theorem stop_change_leaves_prompt_position :
  let s := steps flatMath [LocationUpdate near1; SelectStop 1;
                           TimeUpdate approaching (lit 2)] tour3 in
  let s' := step flatMath SkipNext s in
  activeStop s = 1 /\ playing s approaching = true
  /\ activeStop s' = 2 /\ currentAudio s' = None /\ isPlaying s' = false
  /\ elapsed (players s') narration = zero
  /\ elapsed (players s') greeting = zero
  /\ elapsed (players s') ending = zero
  /\ elapsed (players s') approaching = lit 2
  /\ JS.eq (elapsed (players s') approaching) zero = false.
Proof. vm_compute. repeat split. Qed.

(** C8, at the failing input: the narration of the last real stop has
    ended and the user presses skip-next.  The autoplay effect asks for the
    ending, the reset effect of the same commit cancels it, and no
    dependency is left changed: the machine rests on the ending stop with
    no active segment until something else (here a location update) makes
    the autoplay effect run again. *)
Theorem skip_to_ending_stays_silent :
  let s := steps flatMath [Skip (ArgNumber 3); PlayTap; Ended narration] tour3 in
  let s' := step flatMath SkipNext s in
  let s'' := step flatMath (LocationUpdate far1) s' in
  activeStop s = 3
  /\ activeStop s' = len s' - 1
  /\ autoplayEffect flatMath (deliver SkipNext s)
       = [SetCurrentAudio (Some ending); SetIsPlaying true]
  /\ currentAudio s' = None /\ isPlaying s' = false
  /\ currentAudio s'' = Some ending /\ isPlaying s'' = true.
Proof. vm_compute. repeat split. Qed.

(** C3, at the failing input: the approach prompt is playing at stop 1.
    The handler written for its completion activates [arrived] but
    publishes the approach banner and the approach pulse; and since the
    listener was to be added at mount, when no audio element existed, the
    completion event reaches no handler at all. *)
Theorem approach_completion_diverges :
  let s := steps flatMath [LocationUpdate near1; SelectStop 1] tour3 in
  let h := run onApproachEnded s in
  playing s approaching = true
  /\ currentAudio h = Some arrived /\ isPlaying h = true
  /\ banner h = Some APPROACH_BANNER
  /\ String.eqb APPROACH_BANNER ARRIVE_BANNER = false
  /\ vibrations h = vibrations s ++ [APPROACH_PULSE]
  /\ approachEndedListener = false
  /\ step flatMath (Ended approaching) s = s.
Proof. vm_compute. repeat split. Qed.

(** ** Timeouts *)

Lemma exec_timers c s : exists more, timers (exec c s) = timers s ++ more.
Proof.
  destruct c; simpl;
    try (exists []; rewrite app_nil_r; reflexivity).
  - destruct (includes (visitedStops s) i); exists []; rewrite app_nil_r; reflexivity.
  - destruct (canVibrate s); exists []; rewrite app_nil_r; reflexivity.
  - exists [t]. reflexivity.
Qed.

Lemma run_timers cs : forall s, exists more, timers (run cs s) = timers s ++ more.
Proof.
  induction cs as [|c cs IH]; intros s.
  - exists []. rewrite app_nil_r. reflexivity.
  - destruct (exec_timers c s) as [m1 H1].
    destruct (IH (exec c s)) as [m2 H2].
    exists (m1 ++ m2). rewrite app_assoc, <- H1. exact H2.
Qed.

Section Timeouts.

Variable M : MathLib.

Lemma settle_timers n : forall prev cur,
  exists more, timers (settle M n prev cur) = timers cur ++ more.
Proof.
  induction n as [|n IH]; intros prev cur; simpl.
  - exists []. rewrite app_nil_r. reflexivity.
  - destruct (quiescent prev cur).
    + exists []. rewrite app_nil_r. reflexivity.
    + destruct (run_timers (pendingEffects M prev cur) cur) as [m1 H1].
      destruct (IH cur (commit M prev cur)) as [m2 H2].
      exists (m1 ++ m2). rewrite app_assoc. unfold commit in H2. rewrite <- H1. exact H2.
Qed.

Lemma deliver_timers e s :
  (forall k, e <> TimeoutFires k) ->
  exists more, timers (deliver e s) = timers s ++ more.
Proof.
  intros NF. destruct e as [target| | |i| | |seg|seg t|l|k]; unfold deliver;
    try apply run_timers.
  - destruct ((0 <=? i) && (i <? len s)); [apply run_timers|].
    exists []. rewrite app_nil_r. reflexivity.
  - destruct (playing s seg); [apply run_timers|].
    exists []. rewrite app_nil_r. reflexivity.
  - destruct (playing s seg).
    + apply (run_timers _ (withPlayers (seek seg t (players s)) s)).
    + exists []. rewrite app_nil_r. reflexivity.
  - contradiction (NF k); reflexivity.
Qed.

Lemma autoplayEffect_narration s :
  isRealStop (activeStop s) (allStops s) = true ->
  currentAudio s = Some narration ->
  autoplayEffect M s = [].
Proof.
  intros HR HN. destruct (isRealStop_bounds _ _ HR) as (E0 & E1 & E2).
  unfold autoplayEffect, len. rewrite E0, E1, E2, HR, HN. simpl.
  destruct (includes (visitedStops s) (activeStop s)); [reflexivity|].
  destruct (nth_error (allStops s) (Z.to_nat (activeStop s))) as [stop|]; [|reflexivity].
  destruct (falsy (lat stop) || falsy (lng stop)); [reflexivity|].
  destruct (lat stop); [|reflexivity]. destruct (lng stop); reflexivity.
Qed.

(** No event clears a timeout.  A pending arrived-to-narration timeout
    keeps its place in the queue through every event that is not the
    expiry of a timeout, a stop change included; and its callback reads no
    state: whenever it runs it makes [narration] the active segment with
    playing true, and at a real stop the autoplay effect leaves that in
    place. *)
Lemma timeout_never_cleared (s : State) (n : nat) :
  nth_error (timers s) n = Some StartNarration ->
  (forall e, (forall k, e <> TimeoutFires k) ->
     nth_error (timers (step M e s)) n = Some StartNarration)
  /\ (let d := deliver (TimeoutFires n) s in
      currentAudio d = Some narration /\ isPlaying d = true /\ banner d = None)
  /\ (isRealStop (activeStop s) (allStops s) = true ->
      let s' := step M (TimeoutFires n) s in
      activeStop s' = activeStop s
      /\ currentAudio s' = Some narration /\ isPlaying s' = true /\ banner s' = None).
Proof.
  intros HT. split; [|split].
  - intros e NF.
    destruct (deliver_timers e s NF) as [m1 H1].
    destruct (settle_timers 4 s (deliver e s)) as [m2 H2].
    unfold step. rewrite H2, H1, <- app_assoc.
    rewrite nth_error_app1; [exact HT|].
    apply nth_error_Some. rewrite HT. discriminate.
  - cbv zeta. unfold deliver. rewrite HT. repeat split.
  - intros HR. cbv zeta. unfold step. rewrite settle_spec.
    unfold deliver. rewrite HT.
    set (d := run (fire StartNarration) (withTimers (remove_nth n (timers s)) s)).
    assert (HA : autoplayEffect M d = []) by (apply autoplayEffect_narration; [exact HR|reflexivity]).
    change (activeStop d) with (activeStop s). rewrite Z.eqb_refl, HA.
    destruct (quiescent s d); repeat split.
Qed.

End Timeouts.

(** C2, at the failing input: stop 2 has been visited; the arrived prompt
    ends at stop 1, which queues the 10 s timeout, and the user skips to
    stop 2 before it expires.  The skip leaves no active segment and
    playing false, and the autoplay effect would offer the narration of a
    visited stop paused; the timeout is still queued, and when it expires
    it starts the narration of stop 2, playing. *)
Theorem stale_timeout_starts_narration :
  let s0 := steps flatMath [Skip (ArgNumber 2); PlayTap; TimeUpdate narration (lit 60);
                            LocationUpdate on1; SelectStop 1] tour3 in
  let s1 := step flatMath (Ended arrived) s0 in
  let s := step flatMath SkipNext s1 in
  let s' := step flatMath (TimeoutFires 1) s in
  activeStop s0 = 1 /\ playing s0 arrived = true
  /\ nth_error (timers s0) 1 = None
  /\ nth_error (timers s1) 1 = Some StartNarration
  /\ activeStop s = 2 /\ currentAudio s = None /\ isPlaying s = false
  /\ includes (visitedStops s) 2 = true
  /\ autoplayEffect flatMath s = [SetCurrentAudio (Some narration); SetIsPlaying false]
  /\ nth_error (timers s) 1 = Some StartNarration
  /\ activeStop s' = 2 /\ currentAudio s' = Some narration /\ isPlaying s' = true.
Proof. vm_compute. repeat split. Qed.

(** ** Distance *)

(** *** Sign symmetry of the binary64 operations *)

Section SignSymmetry.

Variables p em : Z.

Lemma binary_round_aux_negb s m e l :
  binary_round_aux p em (negb s) m e l = SFopp (binary_round_aux p em s m e l).
Proof.
  unfold binary_round_aux.
  destruct (shr_fexp p em m e l) as [mrs' e'].
  destruct (shr_fexp p em _ e' loc_Exact) as [mrs'' e''].
  destruct (shr_m mrs''); [reflexivity| |reflexivity].
  destruct (Z.leb e'' (em - p)); reflexivity.
Qed.

Lemma binary_round_aux_sign s m e l :
  binary_round_aux p em s m e l =
    if s then SFopp (binary_round_aux p em false m e l)
    else binary_round_aux p em false m e l.
Proof. destruct s; [apply (binary_round_aux_negb false)|reflexivity]. Qed.

Lemma SFopp_involutive x : SFopp (SFopp x) = x.
Proof. destruct x; simpl; rewrite ?negb_involutive; reflexivity. Qed.

Lemma SFmul_opp_l x y : SFmul p em (SFopp x) y = SFopp (SFmul p em x y).
Proof.
  destruct x as [sx|sx| |sx mx ex], y as [sy|sy| |sy my ey]; cbn [SFmul SFopp];
    try reflexivity; try (destruct sx, sy; reflexivity).
  rewrite (binary_round_aux_sign (xorb (negb sx) sy)), (binary_round_aux_sign (xorb sx sy)).
  destruct sx, sy; cbn [xorb negb]; rewrite ?SFopp_involutive; reflexivity.
Qed.

Lemma SFmul_comm x y : SFmul p em x y = SFmul p em y x.
Proof.
  destruct x as [sx|sx| |sx mx ex], y as [sy|sy| |sy my ey]; cbn [SFmul];
    try reflexivity; try (destruct sx, sy; reflexivity).
  rewrite xorb_comm, Pos.mul_comm, Z.add_comm. reflexivity.
Qed.

Lemma SFdiv_opp_l x y : SFdiv p em (SFopp x) y = SFopp (SFdiv p em x y).
Proof.
  destruct x as [sx|sx| |sx mx ex], y as [sy|sy| |sy my ey]; cbn [SFdiv SFopp];
    try reflexivity; try (destruct sx, sy; reflexivity).
  destruct (SFdiv_core_binary p em (Z.pos mx) ex (Z.pos my) ey) as [[mz ez] lz].
  rewrite (binary_round_aux_sign (xorb (negb sx) sy)), (binary_round_aux_sign (xorb sx sy)).
  destruct sx, sy; cbn [xorb negb]; rewrite ?SFopp_involutive; reflexivity.
Qed.

Lemma binary_normalize_opp m e :
  binary_normalize p em (- m) e false =
    match m with
    | Z0 => S754_zero false
    | _ => SFopp (binary_normalize p em m e false)
    end.
Proof.
  destruct m as [|q|q]; cbn [binary_normalize Z.opp]; try reflexivity.
  - unfold binary_round. destruct (shl_align _ _ _) as [mz ez].
    apply (binary_round_aux_negb false).
  - unfold binary_round. destruct (shl_align _ _ _) as [mz ez].
    rewrite (binary_round_aux_negb false), SFopp_involutive. reflexivity.
Qed.

(** Swapping the operands of a subtraction negates the result, except
    that an exact zero is +0 both ways. *)
Lemma SFsub_swap x y :
  SFsub p em y x = SFopp (SFsub p em x y)
  \/ (SFsub p em x y = S754_zero false /\ SFsub p em y x = S754_zero false).
Proof.
  destruct x as [sx|sx| |sx mx ex], y as [sy|sy| |sy my ey]; cbn [SFsub SFopp];
    try (left; reflexivity);
    try (destruct sx, sy; (left; reflexivity) || (right; split; reflexivity)).
  rewrite (Z.min_comm ey ex).
  set (a := cond_Zopp sx (Z.pos (fst (shl_align mx ex (Z.min ex ey))))).
  set (b := cond_Zopp sy (Z.pos (fst (shl_align my ey (Z.min ex ey))))).
  replace (b - a) with (- (a - b)) by lia.
  rewrite binary_normalize_opp.
  destruct (a - b) eqn:E.
  - right. split; reflexivity.
  - left. reflexivity.
  - left. reflexivity.
Qed.

Lemma SFsub_diag x : finite x = true -> SFsub p em x x = S754_zero false.
Proof.
  destruct x as [sx|sx| |sx mx ex]; intros H; try discriminate H; cbn [SFsub].
  - destruct sx; reflexivity.
  - rewrite Z.sub_diag. reflexivity.
Qed.

Lemma SFmul_zero_r x : finite x = true -> exists s, SFmul p em x (S754_zero false) = S754_zero s.
Proof.
  destruct x as [sx|sx| |sx mx ex]; intros H; try discriminate H; cbn [SFmul];
    eexists; reflexivity.
Qed.

End SignSymmetry.

Lemma SFeqb_refl x : isNaN x = false -> SFeqb x x = true.
Proof.
  unfold SFeqb. destruct x as [s|s| |s m e]; intros H; try discriminate H; cbn [SFcompare].
  - reflexivity.
  - destruct s; reflexivity.
  - rewrite Z.compare_refl, Pos.compare_cont_refl. destruct s; reflexivity.
Qed.

(** *** The haversine helper *)

Section DistanceClaims.

Variable M : MathLib.
Hypothesis HM : MathSane M.

Lemma mul_zero_r x : finite x = true -> exists s, mul x zero = S754_zero s.
Proof. apply SFmul_zero_r. Qed.

Lemma toRad_neg x : toRad (neg x) = neg (toRad x).
Proof.
  unfold toRad, mul, div, neg. rewrite SFmul_opp_l, SFdiv_opp_l. reflexivity.
Qed.

(** The squared half-angle sine does not depend on the order of the two
    coordinates. *)
Lemma haversine_swap x y :
  m_sq M (m_sin M (div (toRad (sub y x)) (lit 2)))
  = m_sq M (m_sin M (div (toRad (sub x y)) (lit 2))).
Proof.
  destruct (SFsub_swap prec emax x y) as [H | [H1 H2]].
  - unfold sub. rewrite H. fold (neg (SFsub prec emax x y)).
    rewrite toRad_neg. unfold div at 1. fold (neg (toRad (SFsub prec emax x y))).
    unfold neg at 1. rewrite SFdiv_opp_l.
    fold (div (toRad (SFsub prec emax x y)) (lit 2)).
    fold (neg (div (toRad (SFsub prec emax x y)) (lit 2))).
    rewrite (sin_odd M HM), (sq_even M HM). reflexivity.
  - unfold sub. rewrite H1, H2. reflexivity.
Qed.

(** C9.  With [Math] functions that are exact at 0, an odd sine and an
    even square, the distance is symmetric: the two calls return the same
    value, so they compare equal with [==] whenever the value is a number;
    and the distance from a point to itself is 0 for finite coordinates
    whose latitude in radians is finite. *)
Theorem distance_symmetric_and_zero (lat1 lng1 lat2 lng2 : Number) :
  getDistanceMeters M lat1 lng1 lat2 lng2 = getDistanceMeters M lat2 lng2 lat1 lng1
  /\ (isNaN (getDistanceMeters M lat1 lng1 lat2 lng2) = false ->
      JS.eq (getDistanceMeters M lat1 lng1 lat2 lng2)
            (getDistanceMeters M lat2 lng2 lat1 lng1) = true)
  /\ (finite lat1 = true -> finite lng1 = true -> finite (toRad lat1) = true ->
      getDistanceMeters M lat1 lng1 lat1 lng1 = zero
      /\ JS.eq (getDistanceMeters M lat1 lng1 lat1 lng1) (lit 0) = true).
Proof.
  assert (S : getDistanceMeters M lat1 lng1 lat2 lng2
              = getDistanceMeters M lat2 lng2 lat1 lng1).
  { unfold getDistanceMeters. cbv zeta.
    rewrite (haversine_swap lat1 lat2), (haversine_swap lng1 lng2).
    unfold mul at 3 7. rewrite (SFmul_comm prec emax (m_cos M (toRad lat1))).
    reflexivity. }
  split; [exact S|]. split.
  - intros HN. rewrite <- S. apply SFeqb_refl, HN.
  - intros F1 F2 F3.
    assert (Z : getDistanceMeters M lat1 lng1 lat1 lng1 = zero).
    { unfold getDistanceMeters. cbv zeta.
      unfold sub. rewrite !SFsub_diag by assumption.
      change (toRad (S754_zero false)) with zero.
      change (div zero (lit 2)) with zero.
      rewrite (sin_zero M HM), (sq_zero M HM).
      destruct (mul_zero_r _ (cos_product_finite M HM _ _ F3 F3)) as [sg Hsg].
      rewrite Hsg.
      replace (add zero (S754_zero sg)) with zero by (destruct sg; reflexivity).
      rewrite (sqrt_zero M HM), (asin_zero M HM). reflexivity. }
    split; [exact Z|]. rewrite Z. reflexivity.
Qed.

End DistanceClaims.

Lemma flatMath_sane : MathSane flatMath.
Proof.
  split; simpl; try reflexivity.
  - intros x. unfold mul, neg. rewrite SFmul_opp_l, (SFmul_comm _ _ x), SFmul_opp_l.
    apply SFopp_involutive.
  - intros x y Fx Fy. destruct x, y; try discriminate; reflexivity.
Qed.

Lemma distance_symmetric_and_zero_witness :
  getDistanceMeters flatMath (loc_lat near1) (loc_lng near1) (loc_lat on1) (loc_lng on1)
  = getDistanceMeters flatMath (loc_lat on1) (loc_lng on1) (loc_lat near1) (loc_lng near1)
  /\ finite (toRad (loc_lat on1)) = true
  /\ getDistanceMeters flatMath (loc_lat on1) (loc_lng on1) (loc_lat on1) (loc_lng on1) = zero.
Proof.
  pose proof (distance_symmetric_and_zero flatMath flatMath_sane
                (loc_lat on1) (loc_lng on1) (loc_lat near1) (loc_lng near1)) as (H1 & _ & H3).
  assert (F1 : finite (loc_lat on1) = true) by (vm_compute; reflexivity).
  assert (F2 : finite (loc_lng on1) = true) by (vm_compute; reflexivity).
  assert (F3 : finite (toRad (loc_lat on1)) = true) by (vm_compute; reflexivity).
  split; [symmetry; exact H1|]. split; [exact F3|].
  exact (proj1 (H3 F1 F2 F3)).
Defined.

(** * Further properties of the live screen *)

(** ** What no command touches *)

Lemma exec_allStops c s : allStops (exec c s) = allStops s.
Proof.
  destruct c; simpl; try reflexivity.
  - destruct (includes (visitedStops s) i); reflexivity.
  - destruct (canVibrate s); reflexivity.
Qed.

Lemma run_allStops cs : forall s, allStops (run cs s) = allStops s.
Proof.
  induction cs as [|c cs IH]; intros s; [reflexivity|].
  simpl. unfold run in IH. rewrite IH. apply exec_allStops.
Qed.

Lemma deliver_allStops e s : allStops (deliver e s) = allStops s.
Proof.
  destruct e as [target| | |i| | |seg|seg t|l|n]; unfold deliver;
    try apply run_allStops.
  - destruct ((0 <=? i) && (i <? len s)); [apply run_allStops|reflexivity].
  - destruct (playing s seg); [apply run_allStops|reflexivity].
  - destruct (playing s seg); [|reflexivity].
    rewrite run_allStops. reflexivity.
  - destruct (nth_error (timers s) n); [|reflexivity].
    rewrite run_allStops. reflexivity.
Qed.

Section Reachable.

Variable M : MathLib.

Lemma step_allStops e s : allStops (step M e s) = allStops s.
Proof.
  destruct (step_sameScene M e s) as (H & _). rewrite <- H. apply deliver_allStops.
Qed.

Lemma step_len e s : len (step M e s) = len s.
Proof. unfold len. rewrite step_allStops. reflexivity. Qed.

Lemma steps_invariant (P : State -> Prop) :
  (forall e s, P s -> P (step M e s)) ->
  forall es s, P s -> P (steps M es s).
Proof.
  intros Hstep es. induction es as [|e es IH]; intros s Hs; simpl; [exact Hs|].
  apply IH, Hstep, Hs.
Qed.

(** *** The active stop stays an index of the sequence *)

Lemma deliver_stopInRange e s : stopInRange s -> stopInRange (deliver e s).
Proof.
  unfold stopInRange, len. intros [HL HA]. rewrite deliver_allStops.
  split; [exact HL|]. fold (len s) in *.
  destruct e as [target| | |i| | |seg|seg t|l|n]; unfold deliver.
  - destruct target as [k|]; simpl; [|exact HA].
    destruct ((0 <=? k) && (k <? len s)) eqn:R; simpl; [|exact HA].
    apply andb_true_iff in R as [R1 R2]. apply Z.leb_le in R1. apply Z.ltb_lt in R2. lia.
  - unfold handleSkip.
    destruct ((0 <=? _) && (_ <? len s)) eqn:R; simpl; [|exact HA].
    apply andb_true_iff in R as [R1 R2]. apply Z.leb_le in R1. apply Z.ltb_lt in R2. lia.
  - unfold handleSkip.
    destruct ((0 <=? _) && (_ <? len s)) eqn:R; simpl; [|exact HA].
    apply andb_true_iff in R as [R1 R2]. apply Z.leb_le in R1. apply Z.ltb_lt in R2. lia.
  - destruct ((0 <=? i) && (i <? len s)) eqn:R; simpl; [|exact HA].
    apply andb_true_iff in R as [R1 R2]. apply Z.leb_le in R1. apply Z.ltb_lt in R2. lia.
  - unfold handlePlay.
    destruct (isPlaying s); simpl; [exact HA|].
    destruct (currentAudio s); simpl; [exact HA|].
    destruct (activeStop s =? 0); [exact HA|].
    destruct (activeStop s =? len s - 1); exact HA.
  - simpl. lia.
  - destruct (playing s seg); [|exact HA].
    destruct seg; simpl; try exact HA.
    + lia.
    + destruct (canVibrate s); exact HA.
  - destruct (playing s seg); [|exact HA].
    destruct seg; simpl; try exact HA.
    destruct (isRealStop (activeStop s) (allStops s)); [|exact HA].
    unfold handleTimeUpdate.
    destruct (negb (includes (visitedStops s) (activeStop s)) && ge t VISITED_THRESHOLD_SECONDS);
      simpl; [|exact HA].
    destruct (includes (visitedStops s) (activeStop s)); exact HA.
  - exact HA.
  - destruct (nth_error (timers s) n) as [[]|]; exact HA.
Qed.

Lemma step_stopInRange e s : stopInRange s -> stopInRange (step M e s).
Proof.
  intros H. apply (deliver_stopInRange e) in H.
  destruct (step_sameScene M e s) as (H1 & H2 & _).
  unfold stopInRange, len in *. rewrite <- H1, <- H2. exact H.
Qed.

Lemma loaded_stopInRange stops v : stopInRange (loaded stops v).
Proof.
  unfold stopInRange, len, loaded. simpl.
  rewrite length_app. simpl. lia.
Qed.

(** X3.  From the loaded tour, whatever the events, the active stop is a
    valid index of [allStops], and [allStops] keeps the greeting and the
    ending around the tour's stops. *)
Theorem active_stop_always_in_range (stops : list Stop) (v : bool) (es : list Event) :
  let s := steps M es (loaded stops v) in
  allStops s = bookend :: stops ++ [bookend]
  /\ 0 <= activeStop s < len s.
Proof.
  cbv zeta. split.
  - apply (steps_invariant (fun s => allStops s = bookend :: stops ++ [bookend])).
    + intros e s H. rewrite step_allStops. exact H.
    + reflexivity.
  - apply (steps_invariant stopInRange).
    + apply step_stopInRange.
    + apply loaded_stopInRange.
Qed.

(** *** Visited stops are real stops *)

Lemma deliver_visitedWellFormed e s : visitedWellFormed s -> visitedWellFormed (deliver e s).
Proof.
  unfold visitedWellFormed. rewrite deliver_allStops. intros [HF HN].
  assert (K : visitedStops (deliver e s) = visitedStops s -> 
              Forall (fun i => isRealStop i (allStops s) = true) (visitedStops (deliver e s))
              /\ NoDup (visitedStops (deliver e s))).
  { intros E. rewrite E. split; assumption. }
  destruct e as [target| | |i| | |seg|seg t|l|n];
    try (apply K, deliver_keeps_visited; [discriminate | intros; discriminate]).
  - simpl. split; constructor.
  - destruct seg;
      try (apply K, deliver_keeps_visited; [discriminate | intros; discriminate]).
    unfold deliver. destruct (playing s narration); [|split; assumption].
    unfold timeupdateListeners.
    change (activeStop (withPlayers _ s)) with (activeStop s).
    destruct (isRealStop (activeStop s) (allStops s)) eqn:HR; [|split; assumption].
    unfold handleTimeUpdate.
    destruct (includes (visitedStops s) (activeStop s)) eqn:HI; [split; assumption|].
    destruct (ge t VISITED_THRESHOLD_SECONDS); [|split; assumption].
    cbn [negb andb run fold_left exec withPlayers visitedStops]. rewrite HI.
    cbn [visitedStops]. split.
    + apply Forall_app. split; [exact HF|]. constructor; [exact HR|constructor].
    + apply NoDup_app; [exact HN|repeat constructor; intros []|].
      intros x Hx [Hy|[]]. subst x.
      unfold includes in HI.
      assert (C : existsb (Z.eqb (activeStop s)) (visitedStops s) = true).
      { apply existsb_exists. exists (activeStop s). split; [exact Hx|apply Z.eqb_refl]. }
      rewrite C in HI. discriminate.
Qed.

Lemma step_visitedWellFormed e s : visitedWellFormed s -> visitedWellFormed (step M e s).
Proof.
  intros H. apply (deliver_visitedWellFormed e) in H.
  destruct (step_sameScene M e s) as (H1 & _ & H3 & _).
  unfold visitedWellFormed in *. rewrite <- H1, <- H3. exact H.
Qed.

(** X4.  From the loaded tour, whatever the events, [visitedStops] holds
    only indices of real stops (never the greeting or the ending) and holds
    none of them twice. *)
Theorem visited_stops_are_real_and_distinct (stops : list Stop) (v : bool) (es : list Event) :
  let s := steps M es (loaded stops v) in
  Forall (fun i => isRealStop i (allStops s) = true) (visitedStops s)
  /\ NoDup (visitedStops s).
Proof.
  cbv zeta. apply (steps_invariant visitedWellFormed).
  - apply step_visitedWellFormed.
  - split; constructor.
Qed.

(** *** The active segment belongs to the active stop *)

Lemma audioIs_true c seg : audioIs c seg = true -> c = Some seg.
Proof.
  destruct c as [x|]; simpl; [|discriminate].
  intros H. apply Segment_eqb_eq in H. subst x. reflexivity.
Qed.

Lemma segmentFits_ext a b :
  allStops a = allStops b -> activeStop a = activeStop b ->
  currentAudio a = currentAudio b -> segmentFits a = segmentFits b.
Proof. intros H1 H2 H3. unfold segmentFits, len. rewrite H1, H2, H3. reflexivity. Qed.

(** Once the autoplay effect has run at a valid stop, a segment is active
    and it is one of that stop's kind. *)
Lemma autoplay_fits x :
  stopInRange x ->
  segmentFits (run (autoplayEffect M x) x) = true
  /\ currentAudio (run (autoplayEffect M x) x) <> None.
Proof.
  intros [HL HA]. unfold len in HL, HA.
  unfold autoplayEffect, len.
  destruct (Z.of_nat (List.length (allStops x)) =? 0) eqn:E0;
    [apply Z.eqb_eq in E0; lia|].
  destruct (activeStop x =? 0) eqn:E1.
  { destruct (audioIs (currentAudio x) greeting) eqn:A.
    - apply audioIs_true in A. unfold segmentFits. cbn. rewrite A, E1.
      split; [reflexivity|discriminate].
    - unfold segmentFits. cbn. rewrite E1. split; [reflexivity|discriminate]. }
  destruct (activeStop x =? Z.of_nat (List.length (allStops x)) - 1) eqn:E2.
  { destruct (audioIs (currentAudio x) ending) eqn:A.
    - apply audioIs_true in A. unfold segmentFits, len. cbn. rewrite A, E2.
      split; [reflexivity|discriminate].
    - unfold segmentFits, len. cbn. rewrite E2. split; [reflexivity|discriminate]. }
  assert (E3 : isRealStop (activeStop x) (allStops x) = true).
  { apply Z.eqb_neq in E1, E2. unfold isRealStop.
    apply andb_true_iff. split; [apply Z.ltb_lt|apply Z.ltb_lt]; lia. }
  rewrite E3.
  destruct (includes (visitedStops x) (activeStop x)).
  { destruct (audioIs (currentAudio x) narration) eqn:A.
    - apply audioIs_true in A. unfold segmentFits. cbn. rewrite A.
      split; [exact E3|discriminate].
    - unfold segmentFits. cbn. split; [exact E3|discriminate]. }
  destruct (isRealStop_lookup _ _ E3) as [stop HS]. rewrite HS.
  destruct (falsy (lat stop) || falsy (lng stop)) eqn:E6.
  { destruct (audioIs (currentAudio x) narration) eqn:A.
    - apply audioIs_true in A. unfold segmentFits. cbn. rewrite A.
      split; [exact E3|discriminate].
    - unfold segmentFits. cbn. split; [exact E3|discriminate]. }
  apply orb_false_iff in E6 as [F1 F2].
  destruct (lat stop) as [slat|]; [|discriminate F1].
  destruct (lng stop) as [slng|]; [|discriminate F2].
  destruct (audioIs (currentAudio x) approaching || audioIs (currentAudio x) arrived
            || audioIs (currentAudio x) narration) eqn:A.
  { unfold segmentFits. cbn.
    destruct (currentAudio x) as [[]|]; try discriminate A;
      (split; [exact E3|discriminate]). }
  destruct (userLocation x) as [u|].
  - destruct (le _ ARRIVE_DISTANCE); [|destruct (le _ APPROACH_DISTANCE)];
      unfold segmentFits; cbn; destruct (canVibrate x); cbn;
      (split; [exact E3|discriminate]).
  - unfold segmentFits. cbn. split; [exact E3|discriminate].
Qed.

Lemma sameScene_stopInRange a b : sameScene a b -> stopInRange a -> stopInRange b.
Proof.
  intros (H1 & H2 & _). unfold stopInRange, len. rewrite <- H1, <- H2. exact (fun H => H).
Qed.

Lemma step_segmentFits e s :
  stopInRange s -> segmentFits s = true -> segmentFits (step M e s) = true.
Proof.
  intros HR HF. pose proof (deliver_stopInRange e s HR) as HRd.
  unfold step. rewrite settle_spec.
  destruct (quiescent s (deliver e s)) eqn:Q.
  - rewrite <- HF. apply segmentFits_ext.
    + apply deliver_allStops.
    + unfold quiescent, resetDepsSame in Q. apply andb_true_iff in Q as [_ Q].
      apply Z.eqb_eq in Q. symmetry. exact Q.
    + unfold quiescent, autoplayDepsSame in Q.
      apply andb_true_iff in Q as [Q _]. apply andb_true_iff in Q as [_ Q].
      destruct (currentAudio s) as [a|], (currentAudio (deliver e s)) as [b|];
        simpl in Q; try discriminate; [|reflexivity].
      apply Segment_eqb_eq in Q. subst b. reflexivity.
  - destruct (activeStop s =? activeStop (deliver e s)).
    + apply autoplay_fits, HRd.
    + destruct (audio_eqb (currentAudio (deliver e s)) None).
      * unfold segmentFits.
        rewrite (proj1 (stopChangeCommit_audio M (deliver e s))). reflexivity.
      * apply autoplay_fits.
        apply (sameScene_stopInRange (deliver e s)); [|exact HRd].
        unfold stopChangeCommit. apply run_effectCmds.
        rewrite forallb_app, autoplayEffect_effectCmds. reflexivity.
Qed.

(** X5.  From the loaded tour, whatever the events, the active segment is
    none or belongs to the active stop: greeting only at index 0, ending
    only at the last index, approaching, arrived and narration only at a
    real stop. *)
Theorem segment_always_fits_stop (stops : list Stop) (v : bool) (es : list Event) :
  let s := steps M es (loaded stops v) in
  match currentAudio s with
  | None => True
  | Some greeting => activeStop s = 0
  | Some ending => activeStop s = len s - 1
  | Some _ => isRealStop (activeStop s) (allStops s) = true
  end.
Proof.
  cbv zeta.
  assert (H : stopInRange (steps M es (loaded stops v))
              /\ segmentFits (steps M es (loaded stops v)) = true).
  { apply (steps_invariant (fun s => stopInRange s /\ segmentFits s = true)).
    - intros e s [H1 H2]. split; [apply step_stopInRange, H1|apply step_segmentFits; assumption].
    - split; [apply loaded_stopInRange|reflexivity]. }
  destruct H as [_ H]. unfold segmentFits in H.
  destruct (currentAudio (steps M es (loaded stops v))) as [[]|];
    try exact H; try (apply Z.eqb_eq; exact H). exact I.
Qed.

End Reachable.

(** ** The stop sequence *)

(** X2.  In [allStops = [greeting, ...stops, ending]] the real stops are
    exactly the indices 1 to [stops.length]: index 0 and the last index are
    not, and entry [i] of [allStops] is then entry [i - 1] of the tour's
    stops. *)
Theorem real_stops_of_sequence (g e : Stop) (stops : list Stop) (i : Z) :
  let all := g :: stops ++ [e] in
  isRealStop i all = ((1 <=? i) && (i <=? Z.of_nat (List.length stops)))
  /\ isRealStop 0 all = false
  /\ isRealStop (Z.of_nat (List.length all) - 1) all = false
  /\ (isRealStop i all = true ->
      nth_error all (Z.to_nat i) = nth_error stops (Z.to_nat (i - 1))
      /\ exists stop, nth_error stops (Z.to_nat (i - 1)) = Some stop).
Proof.
  cbv zeta.
  assert (L : Z.of_nat (List.length (g :: stops ++ [e])) = Z.of_nat (List.length stops) + 2).
  { simpl List.length. rewrite length_app. simpl List.length. lia. }
  unfold isRealStop. rewrite L.
  split; [|split; [|split]].
  - destruct (0 <? i) eqn:A, (i <? Z.of_nat (List.length stops) + 2 - 1) eqn:B,
      (1 <=? i) eqn:C, (i <=? Z.of_nat (List.length stops)) eqn:D; try reflexivity;
      rewrite ?Z.ltb_lt, ?Z.ltb_ge, ?Z.leb_le, ?Z.leb_gt in *; lia.
  - reflexivity.
  - rewrite Z.ltb_irrefl. apply andb_false_r.
  - intros H. apply andb_true_iff in H as [A B]. apply Z.ltb_lt in A, B.
    assert (E : Z.to_nat i = S (Z.to_nat (i - 1))) by lia.
    rewrite E. simpl nth_error.
    assert (LT : (Z.to_nat (i - 1) < List.length stops)%nat) by lia.
    rewrite nth_error_app1 by exact LT.
    split; [reflexivity|].
    destruct (nth_error stops (Z.to_nat (i - 1))) as [stop|] eqn:N; [exists stop; reflexivity|].
    apply nth_error_None in N. lia.
Qed.

(** ** The play/pause button *)

Section PlayPause.

Variable M : MathLib.

(** When the active segment is the one the stop calls for, the autoplay
    effect has nothing to do. *)
Lemma autoplay_segmentOfStop x :
  audioIs (currentAudio x) (segmentOfStop x) = true -> autoplayEffect M x = [].
Proof.
  unfold segmentOfStop. intros H.
  destruct (activeStop x =? 0) eqn:E1.
  { unfold autoplayEffect. rewrite E1, H. destruct (len x =? 0); reflexivity. }
  destruct (activeStop x =? len x - 1) eqn:E2.
  { unfold autoplayEffect. rewrite E1, E2, H. destruct (len x =? 0); reflexivity. }
  destruct (isRealStop (activeStop x) (allStops x)) eqn:E3.
  - apply autoplayEffect_narration; [exact E3|apply audioIs_true, H].
  - unfold autoplayEffect. rewrite E1, E2, E3. destruct (len x =? 0); reflexivity.
Qed.

Lemma quiescent_same_deps a b :
  activeStop a = activeStop b -> locationId a = locationId b ->
  visitedId a = visitedId b -> currentAudio a = currentAudio b ->
  quiescent a b = true.
Proof.
  intros H1 H2 H3 H4. unfold quiescent, autoplayDepsSame, resetDepsSame.
  rewrite H1, H2, H3, H4, Z.eqb_refl, !Nat.eqb_refl, audio_eqb_refl. reflexivity.
Qed.

(** X1.  A tap on play/pause flips the play flag and nothing undoes it: the
    stop, the banner, the timeouts and the visited stops are untouched, an
    active segment stays, and with no active segment a tap that starts
    playback selects greeting at index 0, ending at the last index and
    narration elsewhere. *)
Theorem play_tap_toggles (s : State) :
  let s' := step M PlayTap s in
  isPlaying s' = negb (isPlaying s)
  /\ currentAudio s' =
       match currentAudio s with
       | Some c => Some c
       | None => if isPlaying s then None else Some (segmentOfStop s)
       end
  /\ activeStop s' = activeStop s
  /\ visitedStops s' = visitedStops s
  /\ banner s' = banner s
  /\ timers s' = timers s.
Proof.
  cbv zeta.
  assert (E : step M PlayTap s = deliver PlayTap s).
  { unfold step. rewrite settle_spec.
    destruct (quiescent s (deliver PlayTap s)) eqn:Q; [reflexivity|].
    assert (A : activeStop (deliver PlayTap s) = activeStop s).
    { unfold deliver, handlePlay.
      destruct (isPlaying s); [reflexivity|].
      destruct (currentAudio s); [reflexivity|].
      destruct (activeStop s =? 0); [reflexivity|].
      destruct (activeStop s =? len s - 1); reflexivity. }
    rewrite A, Z.eqb_refl.
    rewrite autoplay_segmentOfStop; [reflexivity|].
    revert Q. unfold deliver, handlePlay, segmentOfStop.
    destruct (isPlaying s);
      [rewrite quiescent_same_deps by reflexivity; discriminate|].
    destruct (currentAudio s) as [c|];
      [rewrite quiescent_same_deps by reflexivity; discriminate|].
    intros _. unfold len.
    destruct (activeStop s =? 0) eqn:E1; cbn; rewrite ?E1; [reflexivity|].
    destruct (activeStop s =? Z.of_nat (List.length (allStops s)) - 1) eqn:E2;
      cbn; rewrite ?E1, ?E2; reflexivity. }
  rewrite E. unfold deliver, handlePlay, segmentOfStop.
  destruct (isPlaying s) eqn:P; cbn; rewrite ?P.
  { destruct (currentAudio s); repeat split. }
  destruct (currentAudio s) as [c|] eqn:C; cbn; rewrite ?P, ?C.
  { repeat split. }
  destruct (activeStop s =? 0); cbn; rewrite ?P.
  { repeat split. }
  destruct (activeStop s =? len s - 1); cbn; rewrite ?P; repeat split.
Qed.

End PlayPause.

(** ** Prompts and narration in flight *)

Lemma remove_nth_last {A : Type} (l : list A) (x : A) :
  remove_nth (List.length l) (l ++ [x]) = l.
Proof. induction l as [|y l IH]; simpl; [reflexivity|]. rewrite IH. reflexivity. Qed.

Lemma nth_error_last {A : Type} (l : list A) (x : A) :
  nth_error (l ++ [x]) (List.length l) = Some x.
Proof. induction l as [|y l IH]; simpl; [reflexivity|exact IH]. Qed.

Section InFlight.

Variable M : MathLib.

(** X8.  A location update never interrupts what a real stop is playing:
    with narration active, or with a prompt active at a stop that is not
    yet visited and has coordinates, the update stores the new location
    and changes nothing else, however near or far it is. *)
Theorem location_update_never_interrupts (s : State) (l : Location) :
  isRealStop (activeStop s) (allStops s) = true ->
  currentAudio s = Some narration
  \/ (includes (visitedStops s) (activeStop s) = false
      /\ (exists stop slat slng,
            nth_error (allStops s) (Z.to_nat (activeStop s)) = Some stop
            /\ lat stop = Some slat /\ lng stop = Some slng
            /\ truthy slat = true /\ truthy slng = true)
      /\ (currentAudio s = Some approaching \/ currentAudio s = Some arrived)) ->
  step M (LocationUpdate l) s = exec (SetUserLocation l) s.
Proof.
  intros HR H. rewrite step_LocationUpdate.
  set (s1 := exec (SetUserLocation l) s).
  assert (E : autoplayEffect M s1 = []).
  { destruct H as [HN | (HV & (stop & slat & slng & HS & Hla & Hlo & Tla & Tlo) & HC)].
    - apply autoplayEffect_narration; [exact HR|exact HN].
    - rewrite (autoplayEffect_coords M s1 stop slat slng HR HV HS Hla Hlo Tla Tlo).
      change (currentAudio s1) with (currentAudio s).
      destruct HC as [HC|HC]; rewrite HC; reflexivity. }
  rewrite E. reflexivity.
Qed.

(** X9.  The end of the arrival sequence: when the arrived prompt of a real
    stop completes, the arrive banner is published and one timeout is
    added while the segment stays [arrived]; when that timeout expires
    next, narration plays, the banner is cleared and the timeout list is
    what it was. *)
Theorem arrived_completion_then_narration (s : State) :
  isRealStop (activeStop s) (allStops s) = true ->
  playing s arrived = true ->
  let s1 := step M (Ended arrived) s in
  let s2 := step M (TimeoutFires (List.length (timers s))) s1 in
  currentAudio s1 = Some arrived /\ isPlaying s1 = true
  /\ banner s1 = Some ARRIVE_BANNER
  /\ timers s1 = timers s ++ [StartNarration]
  /\ activeStop s2 = activeStop s
  /\ currentAudio s2 = Some narration /\ isPlaying s2 = true
  /\ banner s2 = None
  /\ timers s2 = timers s.
Proof.
  intros HR HP. cbv zeta.
  pose proof HP as HP'. unfold playing in HP'. apply andb_true_iff in HP' as [HA HI].
  apply audioIs_true in HA.
  assert (E1 : step M (Ended arrived) s = run onArrivedEnded s).
  { unfold step, deliver. rewrite HP.
    change (endedListeners arrived) with (onArrivedEnded ++ []).
    rewrite app_nil_r. apply settle_quiescent.
    apply quiescent_same_deps; unfold onArrivedEnded; cbn;
      destruct (canVibrate s); reflexivity. }
  rewrite E1.
  remember (run onArrivedEnded s) as s1 eqn:Hs1.
  assert (F1 : currentAudio s1 = Some arrived /\ isPlaying s1 = true
               /\ banner s1 = Some ARRIVE_BANNER
               /\ timers s1 = timers s ++ [StartNarration]
               /\ activeStop s1 = activeStop s /\ allStops s1 = allStops s).
  { rewrite Hs1. unfold onArrivedEnded. cbn. destruct (canVibrate s); cbn;
      rewrite HA, HI; repeat split. }
  clear Hs1. destruct F1 as (C1 & P1 & B1 & T1 & A1 & L1).
  repeat (split; [assumption|]).
  unfold step. rewrite settle_spec. unfold deliver.
  rewrite T1, nth_error_last, remove_nth_last.
  set (d := run (fire StartNarration) (withTimers (timers s) s1)).
  assert (HA2 : autoplayEffect M d = []).
  { apply autoplayEffect_narration; [|reflexivity].
    change (isRealStop (activeStop s1) (allStops s1) = true). rewrite A1, L1. exact HR. }
  change (activeStop d) with (activeStop s1). rewrite Z.eqb_refl, HA2.
  destruct (quiescent s1 d); cbn; rewrite A1; repeat split.
Qed.

End InFlight.

(** ** Arriving at a stop with a segment active *)

Section Arrivals.

Variable M : MathLib.

(** A stop change that leaves a segment active is settled by a second
    run of the autoplay effect, on the reset state. *)
Lemma settle_stop_change_active prev cur :
  activeStop prev <> activeStop cur -> currentAudio cur <> None ->
  settle M 4 prev cur
  = run (autoplayEffect M (stopChangeCommit M cur)) (stopChangeCommit M cur).
Proof.
  intros H HN. rewrite settle_spec.
  assert (Q : quiescent prev cur = false).
  { unfold quiescent, resetDepsSame. apply Z.eqb_neq in H. rewrite H.
    apply andb_false_r. }
  rewrite Q. apply Z.eqb_neq in H. rewrite H.
  destruct (currentAudio cur); [reflexivity|contradiction HN; reflexivity].
Qed.

Lemma stopChangeCommit_allStops cur : allStops (stopChangeCommit M cur) = allStops cur.
Proof. apply run_allStops. Qed.

Lemma autoplay_at_first x :
  (len x =? 0) = false -> activeStop x = 0 -> currentAudio x = None ->
  autoplayEffect M x = [SetCurrentAudio (Some greeting); SetIsPlaying false].
Proof.
  intros H0 HA HN. unfold autoplayEffect. rewrite H0, HA, HN. reflexivity.
Qed.

Lemma autoplay_at_last x :
  (len x =? 0) = false -> activeStop x <> 0 -> activeStop x = len x - 1 ->
  currentAudio x = None ->
  autoplayEffect M x = [SetCurrentAudio (Some ending); SetIsPlaying true].
Proof.
  intros H0 HA HL HN. unfold autoplayEffect. apply Z.eqb_neq in HA.
  rewrite H0, HA, HN. apply Z.eqb_eq in HL. rewrite HL. reflexivity.
Qed.

(** The reset state of a stop change, as the second autoplay run sees it. *)
Lemma stopChangeCommit_view cur :
  let c := stopChangeCommit M cur in
  len c = len cur /\ activeStop c = activeStop cur /\ currentAudio c = None
  /\ isPlaying c = false.
Proof.
  cbv zeta. pose proof (stopChangeCommit_spec M cur) as (H1 & H2 & H3 & _).
  unfold len. rewrite stopChangeCommit_allStops. auto.
Qed.

(** X7.  Selecting another stop from the list: with no segment active the
    machine rests on the new stop with no segment and not playing; with a
    segment active the autoplay effect runs a second time, so a segment is
    active afterwards, the paused greeting at index 0 and the playing
    ending at the last index. *)
Theorem select_stop_from_list (s : State) (i : Z) :
  2 <= len s -> 0 <= i < len s -> i <> activeStop s ->
  let s' := step M (SelectStop i) s in
  activeStop s' = i
  /\ (currentAudio s = None -> currentAudio s' = None /\ isPlaying s' = false)
  /\ (currentAudio s <> None ->
      currentAudio s' <> None
      /\ (i = 0 -> currentAudio s' = Some greeting /\ isPlaying s' = false)
      /\ (i = len s - 1 -> currentAudio s' = Some ending /\ isPlaying s' = true)).
Proof.
  intros HL HI HN. cbv zeta.
  assert (R : (0 <=? i) && (i <? len s) = true).
  { apply andb_true_iff. split; [apply Z.leb_le|apply Z.ltb_lt]; lia. }
  assert (D : deliver (SelectStop i) s = exec (SetActiveStop i) s).
  { unfold deliver. rewrite R. reflexivity. }
  split; [|split].
  - destruct (step_sameScene M (SelectStop i) s) as (_ & H & _).
    rewrite <- H, D. reflexivity.
  - intros HC. unfold step. rewrite D.
    rewrite settle_stop_change; [|cbn; congruence|exact HC].
    pose proof (stopChangeCommit_spec M (exec (SetActiveStop i) s)) as (_ & H2 & H3 & _).
    auto.
  - intros HC. unfold step. rewrite D.
    rewrite settle_stop_change_active; [|cbn; congruence|exact HC].
    set (cur := exec (SetActiveStop i) s).
    pose proof (stopChangeCommit_view cur) as (V1 & V2 & V3 & V4).
    change (len cur) with (len s) in V1. change (activeStop cur) with i in V2.
    set (c := stopChangeCommit M cur) in *.
    assert (Z0 : (len c =? 0) = false) by (apply Z.eqb_neq; lia).
    split; [|split].
    + apply autoplay_fits. unfold stopInRange. lia.
    + intros I0. rewrite autoplay_at_first by (assumption || congruence).
      split; reflexivity.
    + intros IL. rewrite autoplay_at_last by (assumption || lia).
      split; reflexivity.
Qed.

(** X10.  The restart button, for a loaded tour: [visitedStops] is emptied
    and index 0 becomes the active stop.  Coming from another stop the
    machine is not playing afterwards, and shows the greeting only if a
    segment was active before; at index 0 it keeps a greeting that is
    already selected, playing or not. *)
Theorem restart_returns_to_greeting (s : State) :
  2 <= len s ->
  let s' := step M Restart s in
  visitedStops s' = [] /\ activeStop s' = 0
  /\ (activeStop s <> 0 ->
      isPlaying s' = false
      /\ currentAudio s' = match currentAudio s with
                           | None => None
                           | Some _ => Some greeting
                           end)
  /\ (activeStop s = 0 ->
      currentAudio s' = Some greeting
      /\ isPlaying s' = if audioIs (currentAudio s) greeting then isPlaying s else false).
Proof.
  intros HL. cbv zeta.
  set (cur := deliver Restart s).
  assert (Z0 : (len cur =? 0) = false) by (apply Z.eqb_neq; change (len cur) with (len s); lia).
  destruct (step_sameScene M Restart s) as (_ & HA & HV & _).
  split; [rewrite <- HV; reflexivity|]. split; [rewrite <- HA; reflexivity|].
  split.
  - intros H0. unfold step. fold cur.
    destruct (currentAudio s) as [c0|] eqn:C.
    + rewrite settle_stop_change_active;
        [|change (activeStop cur) with 0; exact H0
         |change (currentAudio cur) with (currentAudio s); rewrite C; discriminate].
      pose proof (stopChangeCommit_view cur) as (V1 & V2 & V3 & V4).
      rewrite autoplay_at_first; [split; reflexivity| |exact V2|exact V3].
      rewrite V1. exact Z0.
    + rewrite settle_stop_change;
        [|change (activeStop cur) with 0; exact H0
         |change (currentAudio cur) with (currentAudio s); exact C].
      pose proof (stopChangeCommit_spec M cur) as (_ & H2 & H3 & _). auto.
  - intros H0. unfold step. fold cur. rewrite settle_spec.
    assert (Q : quiescent s cur = false).
    { unfold quiescent, autoplayDepsSame. cbn.
      replace (Nat.eqb (visitedId s) (S (visitedId s))) with false
        by (symmetry; apply Nat.eqb_neq; lia).
      rewrite !andb_false_r. reflexivity. }
    rewrite Q. change (activeStop cur) with 0. rewrite H0, Z.eqb_refl.
    unfold autoplayEffect. rewrite Z0.
    change (activeStop cur) with 0. change (currentAudio cur) with (currentAudio s).
    rewrite Z.eqb_refl.
    destruct (audioIs (currentAudio s) greeting) eqn:A; cbn.
    + apply audioIs_true in A. split; [exact A|reflexivity].
    + split; reflexivity.
Qed.

End Arrivals.

(** ** The greeting *)

Lemma deliver_starts_playing e s :
  e <> PlayTap -> isPlaying (deliver e s) = true ->
  isPlaying s = true \/ currentAudio (deliver e s) = Some narration.
Proof.
  intros NP. destruct e as [target| | |i| | |seg|seg t|l|n]; unfold deliver.
  - destruct target as [k|]; simpl; [|auto].
    destruct ((0 <=? k) && (k <? len s)); simpl; [discriminate|auto].
  - unfold handleSkip. destruct ((0 <=? _) && (_ <? len s)); simpl; [discriminate|auto].
  - unfold handleSkip. destruct ((0 <=? _) && (_ <? len s)); simpl; [discriminate|auto].
  - destruct ((0 <=? i) && (i <? len s)); simpl; auto.
  - contradiction NP; reflexivity.
  - simpl. auto.
  - destruct (playing s seg); [|auto].
    destruct seg; simpl; auto; try discriminate.
    destruct (canVibrate s); simpl; auto.
  - destruct (playing s seg); [|auto].
    destruct seg; simpl; auto.
    destruct (isRealStop (activeStop s) (allStops s)); [|simpl; auto].
    unfold handleTimeUpdate.
    destruct (negb (includes (visitedStops s) (activeStop s)) && ge t VISITED_THRESHOLD_SECONDS);
      simpl; auto.
    destruct (includes (visitedStops s) (activeStop s)); simpl; auto.
  - simpl. auto.
  - destruct (nth_error (timers s) n) as [[]|]; simpl; auto.
Qed.

Section Greeting.

Variable M : MathLib.

Lemma autoplay_at_first_playing x :
  (len x =? 0) = false -> activeStop x = 0 ->
  isPlaying (run (autoplayEffect M x) x) = true ->
  currentAudio x = Some greeting /\ isPlaying x = true.
Proof.
  intros H0 HA. unfold autoplayEffect. rewrite H0, HA. simpl (0 =? 0).
  cbv iota.
  destruct (audioIs (currentAudio x) greeting) eqn:A; simpl.
  - intros H. split; [apply audioIs_true, A|exact H].
  - discriminate.
Qed.

(** X6.  The greeting never starts by itself.  From the loaded tour,
    whatever happened before, an event other than a tap on play/pause
    leaves the machine playing at index 0 only if it was already playing
    at index 0. *)
Theorem greeting_never_autoplays (stops : list Stop) (v : bool) (es : list Event) (e : Event) :
  e <> PlayTap ->
  let s := steps M es (loaded stops v) in
  let s' := step M e s in
  activeStop s' = 0 -> isPlaying s' = true ->
  activeStop s = 0 /\ isPlaying s = true.
Proof.
  intros NP. cbv zeta.
  assert (H : stopInRange (steps M es (loaded stops v))
              /\ segmentFits (steps M es (loaded stops v)) = true).
  { apply (steps_invariant M (fun s => stopInRange s /\ segmentFits s = true)).
    - intros e0 s0 [H1 H2].
      split; [apply step_stopInRange, H1|apply step_segmentFits; assumption].
    - split; [apply loaded_stopInRange|reflexivity]. }
  destruct H as [HR HF]. set (s := steps M es (loaded stops v)) in *.
  pose proof (deliver_stopInRange e s HR) as [HL _].
  set (cur := deliver e s) in *.
  assert (Z0 : forall x, len x = len cur -> (len x =? 0) = false).
  { intros x Hx. apply Z.eqb_neq. lia. }
  unfold step. fold cur. rewrite settle_spec.
  destruct (quiescent s cur) eqn:Q.
  - intros A0 P0.
    assert (A : activeStop s = activeStop cur /\ currentAudio s = currentAudio cur).
    { unfold quiescent, autoplayDepsSame, resetDepsSame in Q.
      apply andb_true_iff in Q as [Q QA]. apply andb_true_iff in Q as [_ Q].
      apply Z.eqb_eq in QA. split; [exact QA|].
      destruct (currentAudio s) as [a|], (currentAudio cur) as [b|];
        simpl in Q; try discriminate; [|reflexivity].
      apply Segment_eqb_eq in Q. subst b. reflexivity. }
    destruct A as [A1 A2]. split; [congruence|].
    destruct (deliver_starts_playing e s NP P0) as [P|N]; [exact P|].
    fold cur in N. rewrite <- A2 in N.
    unfold segmentFits in HF. rewrite N in HF.
    rewrite A1, A0 in HF. discriminate HF.
  - destruct (activeStop s =? activeStop cur) eqn:EA.
    + intros A0 P0. apply Z.eqb_eq in EA.
      pose proof (run_effectCmds _ cur (autoplayEffect_effectCmds M cur)) as (_ & S2 & _).
      rewrite <- S2 in A0.
      destruct (autoplay_at_first_playing cur (Z0 cur eq_refl) A0 P0) as [C P].
      split; [congruence|].
      destruct (deliver_starts_playing e s NP P) as [P'|N]; [exact P'|].
      fold cur in N. congruence.
    + pose proof (stopChangeCommit_view M cur) as (V1 & V2 & V3 & V4).
      destruct (audio_eqb (currentAudio cur) None).
      * intros _ P0. rewrite V4 in P0. discriminate P0.
      * intros A0 P0.
        pose proof (run_effectCmds _ (stopChangeCommit M cur)
                      (autoplayEffect_effectCmds M (stopChangeCommit M cur))) as (_ & S2 & _).
        rewrite <- S2 in A0.
        destruct (autoplay_at_first_playing _ (Z0 _ V1) A0 P0) as [_ P].
        rewrite V4 in P. discriminate P.
Qed.

Lemma autoplay_no_location x :
  isRealStop (activeStop x) (allStops x) = true ->
  includes (visitedStops x) (activeStop x) = false ->
  userLocation x = None -> currentAudio x = None ->
  autoplayEffect M x = [SetCurrentAudio (Some narration); SetIsPlaying true].
Proof.
  intros HR HV HU HN.
  destruct (isRealStop_lookup _ _ HR) as [stop HS].
  destruct (falsy (lat stop) || falsy (lng stop)) eqn:F.
  - rewrite (autoplayEffect_no_coords M x stop HR HV HS F), HN. reflexivity.
  - apply orb_false_iff in F as [F1 F2].
    destruct (lat stop) as [slat|] eqn:La; [|discriminate F1].
    destruct (lng stop) as [slng|] eqn:Lo; [|discriminate F2].
    simpl in F1, F2. apply negb_false_iff in F1, F2.
    rewrite (autoplayEffect_coords M x stop slat slng HR HV HS La Lo F1 F2), HN, HU.
    reflexivity.
Qed.

(** X11.  When the greeting completes at index 0, stop 1 becomes active
    and a segment is always active afterwards, one that belongs to stop 1:
    the ending, playing, when the tour has no real stop; and when stop 1 is
    a real stop not yet visited and no location is known, its narration,
    playing. *)
Theorem greeting_completion_advances (s : State) :
  2 <= len s -> activeStop s = 0 -> playing s greeting = true ->
  let s' := step M (Ended greeting) s in
  activeStop s' = 1
  /\ currentAudio s' <> None /\ segmentFits s' = true
  /\ (len s = 2 -> currentAudio s' = Some ending /\ isPlaying s' = true)
  /\ (isRealStop 1 (allStops s) = true -> includes (visitedStops s) 1 = false ->
      userLocation s = None ->
      currentAudio s' = Some narration /\ isPlaying s' = true).
Proof.
  intros HL HA HP. cbv zeta.
  pose proof HP as HP'. unfold playing in HP'. apply andb_true_iff in HP' as [HG _].
  apply audioIs_true in HG.
  assert (D : deliver (Ended greeting) s = run onGreetingEnded s).
  { unfold deliver. rewrite HP. reflexivity. }
  unfold step. rewrite D.
  set (cur := run onGreetingEnded s).
  rewrite settle_stop_change_active;
    [|change (activeStop cur) with 1; lia
     |change (currentAudio cur) with (currentAudio s); rewrite HG; discriminate].
  pose proof (stopChangeCommit_view M cur) as (V1 & V2 & V3 & V4).
  pose proof (stopChangeCommit_allStops M cur) as VA.
  pose proof (run_effectCmds _ cur
                (eq_trans (forallb_app _ _ _)
                   (f_equal2 andb (autoplayEffect_effectCmds M cur) (resetEffect_effectCmds cur))))
    as (_ & _ & VV & VU & _).
  fold (stopChangeCommit M cur) in VV, VU.
  change (len cur) with (len s) in V1. change (activeStop cur) with 1 in V2.
  change (allStops cur) with (allStops s) in VA.
  change (visitedStops cur) with (visitedStops s) in VV.
  change (userLocation cur) with (userLocation s) in VU.
  set (c := stopChangeCommit M cur) in *.
  assert (Z0 : (len c =? 0) = false) by (apply Z.eqb_neq; lia).
  assert (FIT : segmentFits (run (autoplayEffect M c) c) = true
                /\ currentAudio (run (autoplayEffect M c) c) <> None).
  { apply autoplay_fits. unfold stopInRange. lia. }
  destruct FIT as [F1 F2].
  split; [|split; [exact F2|split; [exact F1|split]]].
  - pose proof (run_effectCmds _ c (autoplayEffect_effectCmds M c)) as (_ & S2 & _).
    rewrite <- S2. exact V2.
  - intros L2. rewrite autoplay_at_last by (assumption || lia). split; reflexivity.
  - intros HR HV HU.
    rewrite autoplay_no_location; [split; reflexivity| | | |exact V3].
    + rewrite V2, VA. exact HR.
    + rewrite V2, <- VV. exact HV.
    + rewrite <- VU. exact HU.
Qed.

End Greeting.

(** ** The progress record *)

Lemma setItem_same k it st : setItem k it st k = Some it.
Proof. unfold setItem. rewrite String.eqb_refl. reflexivity. Qed.

(** X12.  Progress is saved but never restored.  In the commit where the
    tour arrives the save effect runs before the load effect, so the load
    effect reads back the record just written from the current state: the
    active stop and the visited stops are unchanged and whatever record
    the storage held is overwritten.  On its own the load effect gives
    back a saved record, and calls no setter when the tour has no
    identifier or the stored string is absent, unparsable or falsy. *)
Theorem saved_progress_overwritten_before_load (tour : option Tour) (s : State) (st : Storage) :
  activeStop (fst (tourCommit tour s st)) = activeStop s
  /\ visitedStops (fst (tourCommit tour s st)) = visitedStops s
  /\ (forall id, guardedTourId tour = Some id ->
        snd (tourCommit tour s st) (progressKey id)
          = Some (Progress (Some (activeStop s)) (Some (visitedStops s)))
        /\ loadProgress tour (saveProgress tour s st) = Some (activeStop s, visitedStops s)
        /\ (st (progressKey id) = None \/ st (progressKey id) = Some Unparsable
            \/ st (progressKey id) = Some FalsyValue -> loadProgress tour st = None))
  /\ (guardedTourId tour = None ->
        loadProgress tour st = None /\ saveProgress tour s st = st).
Proof.
  unfold tourCommit, loadProgress, saveProgress. cbn [fst snd].
  destruct (guardedTourId tour) as [id|] eqn:G.
  - rewrite setItem_same. cbn.
    split; [reflexivity|]. split; [reflexivity|]. split; [|discriminate].
    intros id' E. injection E as <-.
    rewrite setItem_same. split; [reflexivity|]. split; [reflexivity|].
    intros [H|[H|H]]; rewrite H; reflexivity.
  - split; [reflexivity|]. split; [reflexivity|]. split; [discriminate|].
    intros _. split; reflexivity.
Qed.

(** X13.  After the restart button the record is not absent: the handler
    removes it, and the save effect of the commit that follows writes a
    fresh one, with active stop 0 and no visited stop; other keys are
    untouched. *)
Theorem restart_rewrites_progress (id : string) (s : State) (st : Storage) :
  String.eqb id "" = false ->
  restartStorage id s st (progressKey id) = Some (Progress (Some 0) (Some []))
  /\ (forall k, String.eqb k (progressKey id) = false -> restartStorage id s st k = st k).
Proof.
  intros H. unfold restartStorage, saveProgress, guardedTourId. cbn [tour_id]. rewrite H.
  split.
  - rewrite setItem_same. reflexivity.
  - intros k Hk. unfold setItem, removeItem. rewrite Hk. reflexivity.
Qed.

Lemma restart_rewrites_progress_witness :
  restartStorage "gold_rush" tour3 (fun _ => Some Unparsable) (progressKey "gold_rush")
  = Some (Progress (Some 0) (Some [])).
Proof.
  exact (proj1 (restart_rewrites_progress "gold_rush" tour3 (fun _ => Some Unparsable) eq_refl)).
Defined.

(** ** The map of the live screen *)




(** ** Starting the tour *)

Section StartTour.

Variable M : MathLib.
Hypothesis HM : MathSane M.

Lemma distance_to_self (la lo : Number) :
  finite la = true -> finite lo = true -> finite (toRad la) = true ->
  getDistanceMeters M la lo la lo = zero.
Proof.
  intros F1 F2 F3. unfold getDistanceMeters. cbv zeta.
  unfold sub. rewrite !SFsub_diag by assumption.
  change (toRad (S754_zero false)) with zero.
  change (div zero (lit 2)) with zero.
  rewrite (sin_zero M HM), (sq_zero M HM).
  destruct (mul_zero_r _ (cos_product_finite M HM _ _ F3 F3)) as [sg Hsg].
  rewrite Hsg.
  replace (add zero (S754_zero sg)) with zero by (destruct sg; reflexivity).
  rewrite (sqrt_zero M HM), (asin_zero M HM). reflexivity.
Qed.

(** X15.  The start button of the preview screen: without a location or
    without a first stop it goes live without unlocking audio; the too-far
    dialog appears only when a distance above 300 m was computed; and a
    user standing on the first stop always goes live with audio unlocked. *)
Theorem start_tour_gate (u : Location) (stops : list Stop) :
  handleStartTour M None stops = GoLive false
  /\ handleStartTour M (Some u) [] = GoLive false
  /\ (handleStartTour M (Some u) stops = TooFar ->
      exists stop0 rest,
        stops = stop0 :: rest
        /\ numGt (getDistanceMeters M (loc_lat u) (loc_lng u)
                    (toNumber (lat stop0)) (toNumber (lng stop0)))
                 DISTANCE_THRESHOLD = true)
  /\ (forall stop0 rest,
        stops = stop0 :: rest ->
        lat stop0 = Some (loc_lat u) -> lng stop0 = Some (loc_lng u) ->
        finite (loc_lat u) = true -> finite (loc_lng u) = true ->
        finite (toRad (loc_lat u)) = true ->
        handleStartTour M (Some u) stops = GoLive true).
Proof.
  split; [reflexivity|]. split; [reflexivity|]. split.
  - destruct stops as [|stop0 rest]; [discriminate|].
    unfold handleStartTour. intros H. exists stop0, rest. split; [reflexivity|].
    destruct (numGt _ DISTANCE_THRESHOLD); [reflexivity|discriminate].
  - intros stop0 rest -> Hla Hlo F1 F2 F3.
    unfold handleStartTour. rewrite Hla, Hlo. cbn [toNumber].
    rewrite distance_to_self by assumption. reflexivity.
Qed.

End StartTour.

Lemma start_tour_gate_witness :
  handleStartTour flatMath (Some on1) [stop1; stop2; stop3] = GoLive true
  /\ handleStartTour flatMath (Some far1) [stop1; stop2; stop3] = TooFar.
Proof.
  split.
  - refine (proj2 (proj2 (proj2 (start_tour_gate flatMath flatMath_sane on1 [stop1; stop2; stop3])))
              stop1 [stop2; stop3] eq_refl eq_refl eq_refl _ _ _); vm_compute; reflexivity.
  - vm_compute. reflexivity.
Defined.

(** ** Theme selection *)

Lemma includesStr_In l x : includesStr l x = true <-> In x l.
Proof.
  unfold includesStr. rewrite existsb_exists. split.
  - intros (y & Hy & E). apply String.eqb_eq in E. subst y. exact Hy.
  - intros H. exists x. split; [exact H|apply String.eqb_refl].
Qed.

Lemma without_In x l y : In y (without x l) <-> In y l /\ y <> x.
Proof.
  unfold without. rewrite filter_In. split; intros [H1 H2]; split; try exact H1.
  - apply negb_true_iff, String.eqb_neq in H2. exact H2.
  - apply negb_true_iff, String.eqb_neq. exact H2.
Qed.

Lemma handleThemeToggle_wellFormed theme f :
  themesWellFormed (selectedThemes f) ->
  themesWellFormed (selectedThemes (handleThemeToggle theme f)).
Proof.
  intros (ND & NO & SU). unfold handleThemeToggle, themesWellFormed.
  destruct (String.eqb theme OWN_WORDS) eqn:EO; cbn [selectedThemes].
  { split; [exact ND|split; [exact NO|exact SU]]. }
  apply String.eqb_neq in EO.
  destruct (includesStr (selectedThemes f) theme) eqn:EI.
  - split; [|split].
    + apply NoDup_filter, ND.
    + intros H. apply without_In in H as [H _]. exact (NO H).
    + intros H. apply without_In in H as [H HT].
      rewrite (SU H). unfold without. cbn [filter].
      apply String.eqb_neq in HT. rewrite HT. reflexivity.
  - assert (NI : ~ In theme (selectedThemes f)).
    { intros H. apply includesStr_In in H. rewrite H in EI. discriminate. }
    destruct (String.eqb theme SURPRISE_ME) eqn:ES.
    + split; [|split].
      * constructor; [intros []|constructor].
      * intros [H|[]]. discriminate H.
      * intros _. reflexivity.
    + apply String.eqb_neq in ES. split; [|split].
      * apply NoDup_app.
        -- apply NoDup_filter, ND.
        -- constructor; [intros []|constructor].
        -- intros x Hx [Hy|[]]. subst x. apply without_In in Hx as [Hx _]. exact (NI Hx).
      * intros H. apply in_app_or in H as [H|[H|[]]].
        -- apply without_In in H as [H _]. exact (NO H).
        -- exact (EO H).
      * intros H. apply in_app_or in H as [H|[H|[]]].
        -- apply without_In in H as [_ H]. contradiction H; reflexivity.
        -- contradiction ES.
Qed.

Lemma toggles_wellFormed toggles : forall f,
  themesWellFormed (selectedThemes f) ->
  themesWellFormed (selectedThemes (fold_left (fun f t => handleThemeToggle t f) toggles f)).
Proof.
  induction toggles as [|t ts IH]; intros f Hf; simpl;
    [exact Hf|apply IH, handleThemeToggle_wellFormed, Hf].
Qed.

Lemma initialForm_wellFormed : themesWellFormed (selectedThemes initialForm).
Proof.
  unfold themesWellFormed. simpl. split; [|split].
  - constructor; [intros []|constructor].
  - intros [H|[]]. discriminate H.
  - intros _. reflexivity.
Qed.

(** X16.  The theme chips of the tour form.  Whatever the sequence of
    toggles from the initial form, the selection never lists a theme
    twice, never holds the own-words chip, and holds Surprise Me only
    alone; and a toggle of any other chip flips that theme's membership. *)
Theorem theme_selection_invariant (toggles : list string) :
  let f := fold_left (fun f t => handleThemeToggle t f) toggles initialForm in
  NoDup (selectedThemes f)
  /\ ~ In OWN_WORDS (selectedThemes f)
  /\ (In SURPRISE_ME (selectedThemes f) -> selectedThemes f = [SURPRISE_ME])
  /\ (forall theme, theme <> OWN_WORDS ->
        includesStr (selectedThemes (handleThemeToggle theme f)) theme
        = negb (includesStr (selectedThemes f) theme)).
Proof.
  cbv zeta.
  pose proof (toggles_wellFormed toggles initialForm initialForm_wellFormed) as (W1 & W2 & W3).
  split; [exact W1|]. split; [exact W2|]. split; [exact W3|].
  clear W1 W2 W3. intros theme HO.
  set (f := fold_left (fun f t => handleThemeToggle t f) toggles initialForm).
  unfold handleThemeToggle. apply String.eqb_neq in HO. rewrite HO. cbn [selectedThemes].
  destruct (includesStr (selectedThemes f) theme) eqn:EI; cbn [negb].
  - destruct (includesStr (without theme (selectedThemes f)) theme) eqn:E; [|reflexivity].
    apply includesStr_In, without_In in E as [_ E]. contradiction E; reflexivity.
  - destruct (String.eqb theme SURPRISE_ME) eqn:ES.
    + apply String.eqb_eq in ES. subst theme. apply includesStr_In. left. reflexivity.
    + apply includesStr_In, in_or_app. right. left. reflexivity.
Qed.

(** ** The skip buttons *)

Section SkipButtons.

Variable M : MathLib.

Lemma deliver_skip_in_range s n :
  0 <= n < len s ->
  deliver (Skip (ArgNumber n)) s
  = run [SetActiveStop n; SetCurrentAudio None; SetIsPlaying false] s.
Proof.
  intros H. unfold deliver, handleSkip.
  replace ((0 <=? n) && (n <? len s)) with true; [reflexivity|].
  symmetry. apply andb_true_iff. split; [apply Z.leb_le|apply Z.ltb_lt]; lia.
Qed.

(** A skip to the stop that is already active, while a segment is active:
    the handler drops the segment and the autoplay effect decides again. *)
Lemma step_skip_same_stop s :
  0 <= activeStop s < len s -> currentAudio s <> None ->
  step M (Skip (ArgNumber (activeStop s))) s
  = run (autoplayEffect M (deliver (Skip (ArgNumber (activeStop s))) s))
        (deliver (Skip (ArgNumber (activeStop s))) s).
Proof.
  intros HR HC. unfold step. rewrite settle_spec.
  rewrite (deliver_skip_in_range s _ HR).
  set (cur := run _ s).
  assert (Q : quiescent s cur = false).
  { unfold quiescent, autoplayDepsSame. cbn.
    destruct (currentAudio s); [|contradiction HC; reflexivity].
    cbn. rewrite !andb_false_r. reflexivity. }
  rewrite Q. change (activeStop cur) with (activeStop s). rewrite Z.eqb_refl. reflexivity.
Qed.

(** X17.  The two skip buttons move by one stop and stay inside the
    sequence.  At its end they do not move: with a segment active,
    skip-next on the last stop leaves the ending playing, even if it was
    paused, and skip-previous on the first leaves the greeting paused. *)
Theorem skip_buttons_stay_in_sequence (s : State) :
  stopInRange s ->
  activeStop (step M SkipNext s) = Z.min (activeStop s + 1) (len s - 1)
  /\ activeStop (step M SkipPrevious s) = Z.max (activeStop s - 1) 0
  /\ (activeStop s = len s - 1 -> currentAudio s <> None ->
      currentAudio (step M SkipNext s) = Some ending
      /\ isPlaying (step M SkipNext s) = true)
  /\ (activeStop s = 0 -> currentAudio s <> None ->
      currentAudio (step M SkipPrevious s) = Some greeting
      /\ isPlaying (step M SkipPrevious s) = false).
Proof.
  intros [HL HA].
  assert (N : step M SkipNext s = step M (Skip (ArgNumber (Z.min (activeStop s + 1) (len s - 1)))) s)
    by reflexivity.
  assert (P : step M SkipPrevious s = step M (Skip (ArgNumber (Z.max (activeStop s - 1) 0))) s)
    by reflexivity.
  rewrite N, P. split; [|split; [|split]].
  - destruct (step_sameScene M (Skip (ArgNumber (Z.min (activeStop s + 1) (len s - 1)))) s)
      as (_ & H & _).
    rewrite <- H, deliver_skip_in_range by lia. reflexivity.
  - destruct (step_sameScene M (Skip (ArgNumber (Z.max (activeStop s - 1) 0))) s)
      as (_ & H & _).
    rewrite <- H, deliver_skip_in_range by lia. reflexivity.
  - intros E HC.
    replace (Z.min (activeStop s + 1) (len s - 1)) with (activeStop s) by lia.
    rewrite step_skip_same_stop by assumption.
    rewrite (deliver_skip_in_range s _ HA).
    rewrite autoplay_at_last; [split; reflexivity| | | |reflexivity].
    + apply Z.eqb_neq. change (len (run _ s)) with (len s). lia.
    + change (activeStop s <> 0). lia.
    + exact E.
  - intros E HC.
    replace (Z.max (activeStop s - 1) 0) with (activeStop s) by lia.
    rewrite step_skip_same_stop by assumption.
    rewrite (deliver_skip_in_range s _ HA).
    rewrite autoplay_at_first; [split; reflexivity| |exact E|reflexivity].
    apply Z.eqb_neq. change (len (run _ s)) with (len s). lia.
Qed.

End SkipButtons.

(** ** Skip requests *)

Section SkipRequests.

Variable M : MathLib.


End SkipRequests.


(** ** Witnesses *)


Lemma skip_buttons_stay_in_sequence_witness :
  let s := steps flatMath [SelectStop 4; Ended ending] tour3 in
  stopInRange s
  /\ currentAudio s = Some ending /\ isPlaying s = false
  /\ activeStop (step flatMath SkipNext s) = 4
  /\ isPlaying (step flatMath SkipNext s) = true.
Proof.
  cbv zeta.
  set (s := steps flatMath [SelectStop 4; Ended ending] tour3).
  assert (R : stopInRange s)
    by (split; [vm_compute; discriminate|split; vm_compute; [discriminate|reflexivity]]).
  assert (A : activeStop s = len s - 1) by (vm_compute; reflexivity).
  assert (C : currentAudio s <> None) by (vm_compute; discriminate).
  split; [exact R|]. split; [vm_compute; reflexivity|]. split; [vm_compute; reflexivity|].
  destruct (skip_buttons_stay_in_sequence flatMath s R) as (H1 & _ & H3 & _).
  split; [rewrite H1; vm_compute; reflexivity|].
  exact (proj2 (H3 A C)).
Defined.

Lemma greeting_never_autoplays_witness :
  let s := steps flatMath [PlayTap] (loaded [stop1; stop2; stop3] true) in
  let s' := step flatMath (LocationUpdate near1) s in
  activeStop s' = 0 /\ isPlaying s' = true /\ activeStop s = 0 /\ isPlaying s = true.
Proof.
  cbv zeta.
  assert (A : activeStop (step flatMath (LocationUpdate near1)
                (steps flatMath [PlayTap] (loaded [stop1; stop2; stop3] true))) = 0)
    by (vm_compute; reflexivity).
  assert (P : isPlaying (step flatMath (LocationUpdate near1)
                (steps flatMath [PlayTap] (loaded [stop1; stop2; stop3] true))) = true)
    by (vm_compute; reflexivity).
  split; [exact A|]. split; [exact P|].
  refine (greeting_never_autoplays flatMath [stop1; stop2; stop3] true [PlayTap]
            (LocationUpdate near1) _ A P).
  discriminate.
Defined.

Lemma select_stop_from_list_witness :
  let s' := step flatMath (SelectStop 4) tour3 in
  currentAudio tour3 = Some greeting
  /\ activeStop s' = 4 /\ currentAudio s' = Some ending /\ isPlaying s' = true.
Proof.
  cbv zeta.
  assert (L : 2 <= len tour3) by (vm_compute; discriminate).
  assert (I : 0 <= 4 < len tour3) by (split; vm_compute; [discriminate|reflexivity]).
  assert (N : 4 <> activeStop tour3) by (vm_compute; discriminate).
  assert (C : currentAudio tour3 <> None) by (vm_compute; discriminate).
  destruct (select_stop_from_list flatMath tour3 4 L I N) as (H1 & _ & H3).
  destruct (H3 C) as (_ & _ & H4).
  split; [reflexivity|]. split; [exact H1|].
  apply H4. vm_compute. reflexivity.
Defined.

Lemma location_update_never_interrupts_witness :
  let s := steps flatMath [Skip (ArgNumber 1); LocationUpdate far1] tour3 in
  let s' := step flatMath (LocationUpdate near1) s in
  currentAudio s = Some narration /\ isPlaying s = false
  /\ currentAudio s' = Some narration /\ isPlaying s' = false.
Proof.
  cbv zeta.
  set (s := steps flatMath [Skip (ArgNumber 1); LocationUpdate far1] tour3).
  assert (R : isRealStop (activeStop s) (allStops s) = true) by (vm_compute; reflexivity).
  assert (C : currentAudio s = Some narration) by (vm_compute; reflexivity).
  assert (P : isPlaying s = false) by (vm_compute; reflexivity).
  rewrite (location_update_never_interrupts flatMath s near1 R (or_introl C)).
  split; [exact C|]. split; [exact P|]. split; [exact C|exact P].
Defined.

Lemma arrived_completion_then_narration_witness :
  let s := steps flatMath [LocationUpdate on1; SelectStop 1] tour3 in
  let s1 := step flatMath (Ended arrived) s in
  let s2 := step flatMath (TimeoutFires (List.length (timers s))) s1 in
  playing s arrived = true
  /\ currentAudio s2 = Some narration /\ isPlaying s2 = true /\ banner s2 = None.
Proof.
  cbv zeta.
  set (s := steps flatMath [LocationUpdate on1; SelectStop 1] tour3).
  assert (R : isRealStop (activeStop s) (allStops s) = true) by (vm_compute; reflexivity).
  assert (P : playing s arrived = true) by (vm_compute; reflexivity).
  destruct (arrived_completion_then_narration flatMath s R P)
    as (_ & _ & _ & _ & _ & H6 & H7 & H8 & _).
  split; [exact P|]. split; [exact H6|]. split; [exact H7|exact H8].
Defined.

Lemma restart_returns_to_greeting_witness :
  let s := steps flatMath [Skip (ArgNumber 2); PlayTap] tour3 in
  let s' := step flatMath Restart s in
  activeStop s = 2 /\ isPlaying s = true
  /\ activeStop s' = 0 /\ currentAudio s' = Some greeting /\ isPlaying s' = false.
Proof.
  cbv zeta.
  set (s := steps flatMath [Skip (ArgNumber 2); PlayTap] tour3).
  assert (L : 2 <= len s) by (vm_compute; discriminate).
  assert (A : activeStop s <> 0) by (vm_compute; discriminate).
  destruct (restart_returns_to_greeting flatMath s L) as (_ & H2 & H3 & _).
  destruct (H3 A) as (H4 & H5).
  split; [vm_compute; reflexivity|]. split; [vm_compute; reflexivity|].
  split; [exact H2|]. split; [rewrite H5; vm_compute; reflexivity|exact H4].
Defined.

Lemma greeting_completion_advances_witness :
  let s := step flatMath PlayTap tour3 in
  let s' := step flatMath (Ended greeting) s in
  playing s greeting = true
  /\ activeStop s' = 1 /\ currentAudio s' = Some narration /\ isPlaying s' = true.
Proof.
  cbv zeta.
  set (s := step flatMath PlayTap tour3).
  assert (L : 2 <= len s) by (vm_compute; discriminate).
  assert (A : activeStop s = 0) by (vm_compute; reflexivity).
  assert (P : playing s greeting = true) by (vm_compute; reflexivity).
  destruct (greeting_completion_advances flatMath s L A P) as (H1 & _ & _ & _ & H5).
  split; [exact P|]. split; [exact H1|].
  apply H5; vm_compute; reflexivity.
Defined.
